(** * l_async: loop, result cell and slot

    A shallow embedding of [include/l_async.h] and the properties of its
    three primitives.

    The library is single threaded and callback driven.  User callbacks are
    represented by small command trees ([code]); the library routines are
    the transitions of an abstract machine whose control stack is explicit,
    so that re-entrancy (a callback calling back into the primitive that is
    running it) is part of the model. *)

From Stdlib Require Import List Bool Arith ZArith Lia Wf_nat.
Import ListNotations.

Set Implicit Arguments.

(* ================================================================== *)
(** * The self-iterating loop                                          *)
(* ================================================================== *)

Module Loop.

Section Machine.

(** [U] is the state captured by the body closure.  The closure lives in
    the shared record and is never copied, so every invocation of the
    body, nested or not, sees the same captures. *)
Variable U : Type.

(** One invocation of the body [void(const loop&)]: it reads and writes
    its captures and may invoke the handle it was given ([Next]), any
    number of times, before it returns. *)
Inductive code : Type :=
| Ret
| Get (k : U -> code)
| Put (u : U) (k : code)
| Next (k : code).

(** The shared record [std::pair<std::function<...>, bool>] behind
    [loop::body] ([first], [second]) with the captures of the closure,
    and three counters that observe the run: bodies started, handle
    invocations made by the body, handle invocations made from outside
    (a stored handle called later). *)
Record shared : Type := mk_shared {
  first : code;
  second : bool;
  captures : U;
  entered : nat;
  resumed : nat;
  posted : nat
}.

Definition set_second (b : bool) (s : shared) : shared :=
  {| first := first s; second := b; captures := captures s;
     entered := entered s; resumed := resumed s; posted := posted s |}.

Definition set_captures (u : U) (s : shared) : shared :=
  {| first := first s; second := second s; captures := u;
     entered := entered s; resumed := resumed s; posted := posted s |}.

Definition count_entered (s : shared) : shared :=
  {| first := first s; second := second s; captures := captures s;
     entered := S (entered s); resumed := resumed s; posted := posted s |}.

Definition count_resumed (s : shared) : shared :=
  {| first := first s; second := second s; captures := captures s;
     entered := entered s; resumed := S (resumed s); posted := posted s |}.

Definition count_posted (s : shared) : shared :=
  {| first := first s; second := second s; captures := captures s;
     entered := entered s; resumed := resumed s; posted := S (posted s) |}.

(** Activation records that belong to the loop.  [InDrive] is a running
    [operator()]: on top of the stack it is at the head of its [while],
    below a body frame it waits for the call of [body->first] to
    return.  [InBody p] is a running body with [p] left to execute. *)
Inductive frame : Type :=
| InDrive
| InBody (p : code).

Definition config : Type := (shared * list frame)%type.

(** [std::make_shared<...>(std::move(body), false)]. *)
Definition make_shared (body : code) (u0 : U) : shared :=
  {| first := body; second := false; captures := u0;
     entered := 0; resumed := 0; posted := 0 |}.

(** [loop::loop(body)]: make the record, then [operator()()]. *)
Definition loop (body : code) (u0 : U) : config :=
  (make_shared body u0, [InDrive]).

(** [loop::operator()] on a stored handle, invoked when nothing of the
    loop is running. *)
Definition operator_call (s : shared) : config :=
  (count_posted s, [InDrive]).

(** One transition.
    - [InDrive] on top: [while ((body->second = !body->second))]: the
      flag is toggled; when it became true the body is called with the
      handle, otherwise [operator()] returns.
    - [InBody] on top: the next command of the body; [Next] calls
      [operator()] on the same record, [Ret] returns to the [while]. *)
Definition step (c : config) : option config :=
  let (s, stk) := c in
  match stk with
  | [] => None
  | InDrive :: rest =>
      let s1 := set_second (negb (second s)) s in
      if second s1
      then Some (count_entered s1, InBody (first s1) :: InDrive :: rest)
      else Some (s1, rest)
  | InBody Ret :: rest => Some (s, rest)
  | InBody (Get k) :: rest => Some (s, InBody (k (captures s)) :: rest)
  | InBody (Put u k) :: rest => Some (set_captures u s, InBody k :: rest)
  | InBody (Next k) :: rest =>
      Some (count_resumed s, InDrive :: InBody k :: rest)
  end.

(** At most [n] transitions. *)
Fixpoint run (n : nat) (c : config) : config :=
  match n with
  | 0 => c
  | S m => match step c with
           | Some c' => run m c'
           | None => c
           end
  end.

(** Everything that can happen to a loop built from [body]: the
    constructor, machine transitions, and invocations of a stored handle
    while the loop is idle. *)
Inductive reachable (body : code) (u0 : U) : config -> Prop :=
| reach_loop : reachable body u0 (loop body u0)
| reach_step c c' :
    reachable body u0 c -> step c = Some c' -> reachable body u0 c'
| reach_call s :
    reachable body u0 (s, []) -> reachable body u0 (operator_call s).


Definition is_drive (f : frame) : bool :=
  match f with InDrive => true | InBody _ => false end.


Definition drives (c : config) : nat := length (filter is_drive (snd c)).

Definition depth (c : config) : nat := length (snd c).

(** ** The constructor and the drive routine in the words of the
    specification

    "Repeatedly: toggle the flag; if it is now true, invoke [B(K)] where
    [K] is bound to this same shared record; then loop.  If it is now
    false, return."  [invoke_body K p] runs the body [p], every [Next]
    being a call of [K]; the recursion is cut by [fuel]. *)
Fixpoint invoke_body (K : shared -> option shared) (p : code) (s : shared)
    : option shared :=
  match p with
  | Ret => Some s
  | Get k => invoke_body K (k (captures s)) s
  | Put u k => invoke_body K k (set_captures u s)
  | Next k =>
      match K (count_resumed s) with
      | Some s' => invoke_body K k s'
      | None => None
      end
  end.

Fixpoint drive_routine (fuel : nat) (s : shared) : option shared :=
  match fuel with
  | 0 => None
  | S fuel' =>
      let s1 := set_second (negb (second s)) s in
      if second s1
      then match invoke_body (drive_routine fuel') (first s1)
                   (count_entered s1) with
           | Some s2 => drive_routine fuel' s2
           | None => None
           end
      else Some s1
  end.

(** What the routine has to do for the frame on top of the stack. *)
Definition routine_of (fuel : nat) (f : frame) (s : shared)
    : option shared :=
  match f with
  | InDrive => drive_routine fuel s
  | InBody p => invoke_body (drive_routine fuel) p s
  end.

(** ** Shapes of the stack *)

(** A body that, on every path, invokes its handle at most once.
    [silent p]: no invocation at all in [p]. *)
Fixpoint silent (p : code) : Prop :=
  match p with
  | Ret => True
  | Get k => forall u, silent (k u)
  | Put _ k => silent k
  | Next _ => False
  end.


(** The bottom of a non-empty stack is an [operator()]. *)
Fixpoint grounded (st : list frame) : bool :=
  match st with
  | [] => true
  | f :: rest =>
      match rest with
      | [] => is_drive f
      | _ :: _ => grounded rest
      end
  end.

(** Handle invocations and body starts cancel out against the
    [operator()] activations still on the stack and the flag. *)
Definition balanced (c : config) : Prop :=
  entered (fst c) + drives c
    = resumed (fst c) + posted (fst c) + 1
      + (if second (fst c) then 1 else 0)
  /\ grounded (snd c) = true
  /\ (snd c = [] -> second (fst c) = false).


(** A body that, on every path, invokes its handle at least once. *)
Fixpoint resumes (p : code) : Prop :=
  match p with
  | Ret => False
  | Get k => forall u, resumes (k u)
  | Put _ k => resumes k
  | Next _ => True
  end.

End Machine.

Arguments Ret {U}.
Arguments InDrive {U}.

(** Sample bodies over a counter.  [count_to n] asks for one more
    iteration while the counter is below [n]; [twice] invokes its handle
    two times in its first invocation; [nest] does so in every invocation
    until the counter reaches zero. *)
Definition count_to (n : nat) : code nat :=
  Get (fun i => if i <? n then Put (S i) (Next Ret) else Ret).

Definition twice : code nat :=
  Get (fun i => match i with
                | 0 => Put 1 (Next (Next Ret))
                | S _ => Ret
                end).


(** A body that never asks for more, and one that always does. *)
Definition bump : code nat := Get (fun i => Put (S i) Ret).

Definition forever : code nat := Get (fun i => Put (S i) (Next Ret)).

(** The body of the test: the stream answers the first five requests
    at once, so the handle is invoked inside the body; the answers to
    the later ones are deferred, and the handle is invoked by the
    executor, [later], once the loop is idle. *)
Definition from_stream : code nat :=
  Get (fun i => if i <? 5 then Put (S i) (Next Ret) else Put (S i) Ret).

Fixpoint later (n : nat) (c : config nat) : config nat :=
  match n with
  | 0 => c
  | S m => later m (run 40 (operator_call (fst c)))
  end.

End Loop.

(* ================================================================== *)
(** * The release-triggered result cell                                *)
(* ================================================================== *)

Module Result.

Section Cell.

(** [T] is the value type, [W] whatever the finalizer acts upon. *)
Variables T W : Type.

(** [result<T>::data_t]. *)
Record data_t : Type := mk_data {
  data : T;
  callback : T -> W -> W
}.

(** A member of the stored value as reached through the reference
    [X& dst] that [setter] captures: [put] is the assignment
    [*dst = value], [get] reads the member back. *)
Record field (X : Type) : Type := mk_field {
  get : T -> X;
  put : X -> T -> T;
  get_put : forall x t, get (put x t) = x
}.

(** The object behind [std::shared_ptr<data_t>] ([None] once [~data_t]
    has run) and its owners: [result] objects and closures made by
    [setter], each of which holds one copy of [ptr].  [finalized] lists
    the arguments [callback] has been called with. *)
Record cell : Type := mk_cell {
  ptr : option data_t;
  handles : nat;
  setters : nat;
  world : W;
  finalized : list T
}.

Definition use_count (c : cell) : nat := handles c + setters c.

(** [result(callback, initial_value)]. *)
Definition result (cb : T -> W -> W) (initial_value : T) (w : W) : cell :=
  {| ptr := Some {| data := initial_value; callback := cb |};
     handles := 1; setters := 0; world := w; finalized := [] |}.

(** What owners do.  [copy] and [destroy] are the copy constructor and
    destructor of a [result]; [write f] is a mutation through
    [operator*] or [operator->]; [setter] builds the closure
    [[dst, holder = ptr]]; [copy_setter] copies such a closure, and its
    [holder] with it; [call_setter] invokes one and [drop_setter]
    destroys one. *)
Inductive op : Type :=
| copy
| destroy
| write (f : T -> T)
| setter
| copy_setter
| call_setter (X : Type) (dst : field X) (value : X)
| drop_setter.

(** [*r = v]. *)
Definition assign (v : T) : op := write (fun _ => v).

(** An owner goes away, leaving [h] handles and [s] setters.  The last
    one destroys the object: [~data_t] calls [callback(std::move(data))]. *)
Definition release (h s : nat) (c : cell) : cell :=
  match h + s, ptr c with
  | 0, Some d =>
      {| ptr := None; handles := 0; setters := 0;
         world := callback d (data d) (world c);
         finalized := finalized c ++ [data d] |}
  | _, _ =>
      {| ptr := ptr c; handles := h; setters := s;
         world := world c; finalized := finalized c |}
  end.

Definition store (f : T -> T) (c : cell) : option cell :=
  match ptr c with
  | Some d =>
      Some {| ptr := Some {| data := f (data d); callback := callback d |};
              handles := handles c; setters := setters c;
              world := world c; finalized := finalized c |}
  | None => None
  end.

(** An operation needs the owner that performs it; without one it
    cannot be written in the program at all ([None]). *)
Definition apply (o : op) (c : cell) : option cell :=
  match o with
  | copy =>
      match handles c with
      | 0 => None
      | S _ => Some {| ptr := ptr c; handles := S (handles c);
                       setters := setters c;
                       world := world c; finalized := finalized c |}
      end
  | destroy =>
      match handles c with
      | 0 => None
      | S h => Some (release h (setters c) c)
      end
  | write f =>
      match handles c with
      | 0 => None
      | S _ => store f c
      end
  | setter =>
      match handles c with
      | 0 => None
      | S _ => Some {| ptr := ptr c; handles := handles c;
                       setters := S (setters c);
                       world := world c; finalized := finalized c |}
      end
  | copy_setter =>
      match setters c with
      | 0 => None
      | S _ => Some {| ptr := ptr c; handles := handles c;
                       setters := S (setters c);
                       world := world c; finalized := finalized c |}
      end
  | call_setter dst value =>
      match setters c with
      | 0 => None
      | S _ => store (put dst value) c
      end
  | drop_setter =>
      match setters c with
      | 0 => None
      | S s => Some (release (handles c) s c)
      end
  end.

Fixpoint runs (ops : list op) (c : cell) : option cell :=
  match ops with
  | [] => Some c
  | o :: rest =>
      match apply o c with
      | Some c' => runs rest c'
      | None => None
      end
  end.

(** The value the operations leave in the cell, read off the program
    text alone. *)
Definition mutation (o : op) : T -> T :=
  match o with
  | write f => f
  | call_setter dst value => put dst value
  | _ => fun t => t
  end.

Definition value_after (initial_value : T) (ops : list op) : T :=
  fold_left (fun t o => mutation o t) ops initial_value.

Definition mutates (o : op) : bool :=
  match o with
  | write _ | call_setter _ _ => true
  | _ => false
  end.

(** The cell is either alive, owned, and not finalized, or it has no
    owner and its finalizer has run once on the value it held. *)
Definition settled (v : T) (cb : T -> W -> W) (w : W) (c : cell) : Prop :=
  (ptr c = Some {| data := v; callback := cb |} /\ 0 < use_count c /\
   finalized c = [] /\ world c = w)
  \/
  (ptr c = None /\ handles c = 0 /\ setters c = 0 /\
   finalized c = [v] /\ world c = cb v w).

(** Owners made and owners given up by an operation. *)
Definition acquires (o : op) : nat :=
  match o with
  | copy | setter | copy_setter => 1
  | _ => 0
  end.

Definition releases (o : op) : nat :=
  match o with
  | destroy | drop_setter => 1
  | _ => 0
  end.

(** Two members that do not overlap: writing one leaves the other. *)
Definition independent (X Y : Type) (f : field X) (g : field Y) : Prop :=
  forall x y t, put f x (put g y t) = put g y (put f x t).

Definition acquired (ops : list op) : nat := list_sum (map acquires ops).

Definition released (ops : list op) : nat := list_sum (map releases ops).

End Cell.

Arguments copy {T}.
Arguments destroy {T}.
Arguments setter {T}.
Arguments copy_setter {T}.
Arguments drop_setter {T}.

(** The two members of a pair, as in [result<pair<A, B>>]. *)
Definition pair_first (A B : Type) : field (A * B) A :=
  {| get := fst; put := fun a p => (a, snd p);
     get_put := fun _ _ => eq_refl |}.

Definition pair_second (A B : Type) : field (A * B) B :=
  {| get := snd; put := fun b p => (fst p, b);
     get_put := fun _ _ => eq_refl |}.

(** Two producers fill the two members; the cell itself and both setters
    are then released (scenario S2 of the specification). *)
Definition fan_in : list (op (nat * nat)) :=
  [setter; setter; destroy;
   call_setter (pair_second nat nat) 20; drop_setter;
   call_setter (pair_first nat nat) 10; drop_setter].

End Result.

(* ================================================================== *)
(** * The single-request slot                                          *)
(* ================================================================== *)

Module Slot.

Section Machine.

(** [T] is the type of the values passed through the slot, [E] the
    type of whatever else user code does that can be observed. *)
Variables T E : Type.

(** User code, callbacks included: it may use the consumer handle
    ([Request], [Copy], [Drop]) and a producer handle ([Await],
    [Deliver]).  A producer handle is a [weak_ptr]; making one with
    [get_provider] changes nothing that is modelled. *)
Inductive code : Type :=
| Ret
| Emit (e : E) (k : code)
| Request (data_listener : T -> code) (k : code)
| Await (request_listener : bool -> code) (k : code)
| Deliver (value : T) (k : code)
| Copy (k : code)
| Drop (k : code).

(** [slot<T>::data]; an empty [std::function] is [None]. *)
Record data : Type := mk_data {
  who_awaits_request : option (bool -> code);
  who_awaits_data : option (T -> code)
}.

(** Calls made by the library into user code, and user output. *)
Inductive event : Type :=
| called_request (terminate : bool)
| called_data (value : T)
| emitted (e : E).

(** The control stack: code to run, and the ends of the scopes of the
    strong pointers [p] obtained from [ptr.lock()]. *)
Inductive frame : Type :=
| call (c : code)
| unlock.

(** The object behind the pointers ([None] once [~data] has run), its
    strong owners (slot objects and locked pointers), and the events
    so far. *)
Record state : Type := mk_state {
  ptr : option data;
  handles : nat;
  locks : nat;
  trace : list event
}.

Inductive outcome : Type :=
| Go (s : state) (stk : list frame)
| Halt (s : state)
| Abort
| Misuse.

(** [slot()]. *)
Definition slot : state :=
  {| ptr := Some {| who_awaits_request := None; who_awaits_data := None |};
     handles := 1; locks := 0; trace := [] |}.

(** A strong owner goes away, leaving [h] handles and [l] locked
    pointers.  The last one destroys the object, and [~data] calls
    [who_awaits_request(true)] when it is set. *)
Definition release (h l : nat) (s : state) (stk : list frame) : outcome :=
  match h + l, ptr s with
  | 0, Some d =>
      match who_awaits_request d with
      | Some r =>
          Go {| ptr := None; handles := 0; locks := 0;
                trace := trace s ++ [called_request true] |}
             (call (r true) :: stk)
      | None =>
          Go {| ptr := None; handles := 0; locks := 0; trace := trace s |}
             stk
      end
  | _, _ =>
      Go {| ptr := ptr s; handles := h; locks := l; trace := trace s |} stk
  end.

(** [slot::operator()(data_listener)]. *)
Definition request (h : T -> code) (k : code) (s : state)
    (rest : list frame) : outcome :=
  match handles s, ptr s with
  | S _, Some d =>
      match who_awaits_data d with
      | Some _ => Abort
      | None =>
          match who_awaits_request d with
          | Some r =>
              Go {| ptr := Some {| who_awaits_request := None;
                                   who_awaits_data := Some h |};
                    handles := handles s; locks := locks s;
                    trace := trace s ++ [called_request false] |}
                 (call (r false) :: call k :: rest)
          | None =>
              Go {| ptr := Some {| who_awaits_request := None;
                                   who_awaits_data := Some h |};
                    handles := handles s; locks := locks s;
                    trace := trace s |}
                 (call k :: rest)
          end
      end
  | _, _ => Misuse
  end.

(** [slot::provider::await(request_listener)]. *)
Definition await (r : bool -> code) (k : code) (s : state)
    (rest : list frame) : outcome :=
  match ptr s with
  | Some d =>
      match who_awaits_request d with
      | Some _ => Abort
      | None =>
          match who_awaits_data d with
          | Some _ =>
              Go {| ptr := ptr s; handles := handles s;
                    locks := S (locks s);
                    trace := trace s ++ [called_request false] |}
                 (call (r false) :: unlock :: call k :: rest)
          | None =>
              Go {| ptr := Some {| who_awaits_request := Some r;
                                   who_awaits_data := None |};
                    handles := handles s; locks := S (locks s);
                    trace := trace s |}
                 (unlock :: call k :: rest)
          end
      end
  | None =>
      Go {| ptr := None; handles := handles s; locks := locks s;
            trace := trace s ++ [called_request true] |}
         (call (r true) :: call k :: rest)
  end.

(** [slot::provider::operator()(value)]. *)
Definition deliver (v : T) (k : code) (s : state)
    (rest : list frame) : outcome :=
  match ptr s with
  | Some d =>
      match who_awaits_data d with
      | Some h =>
          Go {| ptr := Some {| who_awaits_request := who_awaits_request d;
                               who_awaits_data := None |};
                handles := handles s; locks := S (locks s);
                trace := trace s ++ [called_data v] |}
             (call (h v) :: unlock :: call k :: rest)
      | None => Abort
      end
  | None => Go s (call k :: rest)
  end.

(** One transition.  [Abort] is a failed [assert]; [Misuse] is a
    program that uses a handle it does not have. *)
Definition step (s : state) (stk : list frame) : outcome :=
  match stk with
  | [] => Halt s
  | unlock :: rest =>
      match locks s with
      | 0 => Misuse
      | S l => release (handles s) l s rest
      end
  | call Ret :: rest => Go s rest
  | call (Emit e k) :: rest =>
      Go {| ptr := ptr s; handles := handles s; locks := locks s;
            trace := trace s ++ [emitted e] |}
         (call k :: rest)
  | call (Request h k) :: rest => request h k s rest
  | call (Await r k) :: rest => await r k s rest
  | call (Deliver v k) :: rest => deliver v k s rest
  | call (Copy k) :: rest =>
      match handles s with
      | 0 => Misuse
      | S _ =>
          Go {| ptr := ptr s; handles := S (handles s); locks := locks s;
                trace := trace s |}
             (call k :: rest)
      end
  | call (Drop k) :: rest =>
      match handles s with
      | 0 => Misuse
      | S h => release h (locks s) s (call k :: rest)
      end
  end.

Fixpoint run (n : nat) (s : state) (stk : list frame) : outcome :=
  match n with
  | 0 => Go s stk
  | S m =>
      match step s stk with
      | Go s' stk' => run m s' stk'
      | o => o
      end
  end.

(** The configurations a program [main] passes through, started on a
    fresh slot. *)
Inductive reachable (main : code) : state -> list frame -> Prop :=
| reach_slot : reachable main slot [call main]
| reach_step s stk s' stk' :
    reachable main s stk -> step s stk = Go s' stk' ->
    reachable main s' stk'.

Definition use_count (s : state) : nat := handles s + locks s.

(** The two sides of the slot as seen from outside. *)
Definition awaits_request (s : state) : option (bool -> code) :=
  match ptr s with
  | Some d => who_awaits_request d
  | None => None
  end.

Definition awaits_data (s : state) : option (T -> code) :=
  match ptr s with
  | Some d => who_awaits_data d
  | None => None
  end.

(** User code that only produces output before it goes on with [k],
    and the state after that output. *)
Fixpoint emits (es : list E) (k : code) : code :=
  match es with
  | [] => k
  | e :: es' => Emit e (emits es' k)
  end.

Definition logged (es : list E) (s : state) : state :=
  {| ptr := ptr s; handles := handles s; locks := locks s;
     trace := trace s ++ map emitted es |}.

(** What is left to run once the owner on top of the stack is gone. *)
Definition resume (stk : list frame) : list frame :=
  match stk with
  | call (Drop k) :: rest => call k :: rest
  | unlock :: rest => rest
  | _ => stk
  end.

(** The object exists exactly while it has a strong owner, and the two
    sides never wait for each other at the same time. *)
Definition sound (s : state) : Prop :=
  (ptr s = None <-> use_count s = 0) /\
  (forall d, ptr s = Some d ->
     who_awaits_request d = None \/ who_awaits_data d = None).

(** Locked pointers whose scope is still open. *)
Definition is_unlock (f : frame) : bool :=
  match f with unlock => true | call _ => false end.

Definition unlocks (stk : list frame) : nat :=
  length (filter is_unlock stk).

(** What can still happen once the record is gone: user output, and
    request listeners told that the consumer is gone. *)
Definition posthumous (e : event) : bool :=
  match e with
  | called_request true => true
  | called_request false => false
  | called_data _ => false
  | emitted _ => true
  end.

(** The state an outcome carries, if any. *)
Definition state_of (o : outcome) : option state :=
  match o with
  | Go s _ => Some s
  | Halt s => Some s
  | Abort => None
  | Misuse => None
  end.

End Machine.

Arguments Ret {T E}.
Arguments called_request {T E}.
Arguments called_data {T E}.
Arguments emitted {T E}.
Arguments unlock {T E}.
Arguments Abort {T E}.
Arguments Misuse {T E}.
Arguments slot {T E}.

(** Sample callbacks, states and programs over numbers. *)

(** A producer that answers a request with [7] and reports abandonment
    as [0]; a consumer that reports the value it gets. *)
Definition answer_7 : bool -> code nat nat :=
  fun terminate => if terminate then Emit 0 Ret else Deliver 7 Ret.

Definition report : nat -> code nat nat := fun v => Emit v Ret.

(** A consumer that asks for the next value from inside the callback. *)
Definition ask_again : nat -> code nat nat :=
  fun v => Request report (Emit v Ret).

(** A slot on which [r] is parked, and one on which [h] is waiting. *)
Definition parked (r : bool -> code nat nat) : state nat nat :=
  {| ptr := Some {| who_awaits_request := Some r; who_awaits_data := None |};
     handles := 1; locks := 0; trace := [] |}.

Definition asked (h : nat -> code nat nat) : state nat nat :=
  {| ptr := Some {| who_awaits_request := None; who_awaits_data := Some h |};
     handles := 1; locks := 0; trace := [] |}.

(** The producer parks first; the consumer asks first. *)
Definition producer_first : code nat nat :=
  Await answer_7 (Request report Ret).

Definition consumer_first : code nat nat :=
  Request report (Await answer_7 Ret).

(** The consumer goes away while the producer is parked (scenario S5),
    and without any producer waiting. *)
Definition abandoned : code nat nat := Await answer_7 (Drop Ret).

Definition abandoned_idle : code nat nat := Drop Ret.

(** The producer delivers after the consumer is gone. *)
Definition late_deliver : code nat nat := Drop (Deliver 5 (Emit 9 Ret)).

(** The delivered callback asks for the next value at once. *)
Definition chained : code nat nat :=
  Request ask_again (Deliver 1 (Deliver 2 Ret)).

(** Delivery with nobody waiting, and a second request or await while
    one is registered. *)
Definition deliver_unasked : code nat nat := Deliver 5 Ret.

Definition double_request : code nat nat :=
  Request report (Request report Ret).

Definition double_await : code nat nat :=
  Await answer_7 (Await answer_7 Ret).

(** The consumer lets go of the slot inside the delivered callback. *)
Definition last_wish : code nat nat :=
  Request (fun _ => Drop (Emit 3 Ret)) (Deliver 1 Ret).

End Slot.


(* ================================================================== *)
(** * The single-thread executor of the tests                          *)
(* ================================================================== *)

Module Executor.

Section Tasks.

(** A task is a closure [std::function<void()>]; [W] is whatever state
    the closures share, [E] what they do that can be observed.
    [perform t w] is a call [t()] made in the state [w]: the state it
    leaves, and its outputs and calls of [schedule], in order. *)
Variables task W E : Type.
Variable perform : task -> W -> W * list (E + task).

(** [single_thread_executor::tasks], with the shared state and the
    outputs so far. *)
Record state : Type := mk_state {
  tasks : list task;
  world : W;
  trace : list E
}.

(** [schedule(task)]: [tasks.emplace_back(move(task))]. *)
Definition schedule (t : task) (st : state) : state :=
  {| tasks := tasks st ++ [t]; world := world st; trace := trace st |}.

Definition act (st : state) (a : E + task) : state :=
  match a with
  | inl e =>
      {| tasks := tasks st; world := world st; trace := trace st ++ [e] |}
  | inr t => schedule t st
  end.

(** The call [t()]. *)
Definition run_task (t : task) (st : state) : state :=
  fold_left act (snd (perform t (world st)))
    {| tasks := tasks st; world := fst (perform t (world st));
       trace := trace st |}.

(** [for (auto& t : current_tasks) t();]. *)
Definition run_all (current_tasks : list task) (st : state) : state :=
  fold_left (fun st t => run_task t st) current_tasks st.

(** [execute()]: while [tasks] is not empty, swap it with an empty
    [current_tasks] and run those.  One unit of [fuel] per round of the
    [while]. *)
Fixpoint execute (fuel : nat) (st : state) : option state :=
  match tasks st with
  | [] => Some st
  | current_tasks =>
      match fuel with
      | 0 => None
      | S fuel' =>
          execute fuel'
            (run_all current_tasks
               {| tasks := []; world := world st; trace := trace st |})
      end
  end.

(** A plain queue, for comparison: take the task at the front, run it,
    go on.  One unit of [fuel] per task. *)
Fixpoint fifo (fuel : nat) (st : state) : option state :=
  match tasks st with
  | [] => Some st
  | t :: rest =>
      match fuel with
      | 0 => None
      | S fuel' =>
          fifo fuel'
            (run_task t
               {| tasks := rest; world := world st; trace := trace st |})
      end
  end.

(** The tasks a call [t()] schedules, and what it puts out. *)
Fixpoint spawned (acts : list (E + task)) : list task :=
  match acts with
  | [] => []
  | inl _ :: rest => spawned rest
  | inr t :: rest => t :: spawned rest
  end.

Fixpoint outputs (acts : list (E + task)) : list E :=
  match acts with
  | [] => []
  | inl e :: rest => e :: outputs rest
  | inr _ :: rest => outputs rest
  end.

(** Tasks only schedule tasks of lower rank. *)
Definition ranked (rank : task -> nat) : Prop :=
  forall t w t', In t' (spawned (snd (perform t w))) -> rank t' < rank t.

End Tasks.

(** Task [n] puts out [n] and schedules task [n - 1], down to task 0. *)
Definition countdown (n : nat) (w : unit) : unit * list (nat + nat) :=
  (w, match n with
      | 0 => [inl 0]
      | S m => [inl n; inr m]
      end).

End Executor.

(* ================================================================== *)
(** * The synchronous directory scan of the documentation              *)
(* ================================================================== *)

Module FsScan.

(** A [sync_dir]: what its stream of directories and its stream of
    files hand out, in order, until they return [nullptr]; a file is the
    [int] that [get_size] returns. *)
Inductive sync_dir : Type :=
| Dir (dirs : forest) (files : list Z)
with forest : Type :=
| no_dirs
| more (d : sync_dir) (rest : forest).

Section Ints.

(** The range of [int]; a sum outside of it is undefined behaviour and
    ends the computation ([None]). *)
Variables min_int max_int : Z.

Definition add_int (a b : Z) : option Z :=
  if ((min_int <=? a + b) && (a + b <=? max_int))%Z
  then Some (a + b)%Z
  else None.

(** [while ((file = stream_of_files->next())) result += file->get_size();] *)
Fixpoint over_files (files : list Z) (result : Z) : option Z :=
  match files with
  | [] => Some result
  | size :: rest =>
      match add_int result size with
      | Some r => over_files rest r
      | None => None
      end
  end.

(** [calc_tree_size_sync], and its first [while]:
    [result += calc_tree_size_sync( *sub_dir )] for each directory. *)
Fixpoint calc_tree_size_sync (root : sync_dir) : option Z :=
  match root with
  | Dir dirs files =>
      match over_dirs dirs 0%Z with
      | Some r => over_files files r
      | None => None
      end
  end
with over_dirs (dirs : forest) (result : Z) : option Z :=
  match dirs with
  | no_dirs => Some result
  | more sub_dir rest =>
      match calc_tree_size_sync sub_dir with
      | Some n =>
          match add_int result n with
          | Some r => over_dirs rest r
          | None => None
          end
      | None => None
      end
  end.

End Ints.

(** The sizes of all files of a tree, added up as numbers. *)
Definition sum_sizes (files : list Z) : Z := fold_right Z.add 0%Z files.

Fixpoint total (root : sync_dir) : Z :=
  match root with
  | Dir dirs files => (totals dirs + sum_sizes files)%Z
  end
with totals (dirs : forest) : Z :=
  match dirs with
  | no_dirs => 0%Z
  | more d rest => (total d + totals rest)%Z
  end.

(** No file of the tree has a negative size. *)
Fixpoint sized (root : sync_dir) : Prop :=
  match root with
  | Dir dirs files => all_sized dirs /\ Forall (fun n => (0 <= n)%Z) files
  end
with all_sized (dirs : forest) : Prop :=
  match dirs with
  | no_dirs => True
  | more d rest => sized d /\ all_sized rest
  end.

(** The directories of the test: a directory at depth [d] has [d] files
    of size [d] and [3 - d] directories of depth [d + 1]; [left] is
    [3 - d]. *)
Fixpoint copies (n : nat) (d : sync_dir) : forest :=
  match n with
  | 0 => no_dirs
  | S m => more d (copies m d)
  end.

Fixpoint fake_sync_dir (left depth : nat) : sync_dir :=
  Dir (match left with
       | 0 => no_dirs
       | S l => copies left (fake_sync_dir l (S depth))
       end)
      (repeat (Z.of_nat depth) depth).

End FsScan.
(* ================================================================== *)
(** * Properties of the loop                                           *)
(* ================================================================== *)

Section LoopFacts.

Import Loop.

Variable U : Type.
Implicit Types (c : config U) (s r : shared U) (p body : code U).
Implicit Types (stk rest : list (frame U)).

Lemma run_add : forall n m c, run (n + m) c = run m (run n c).
Proof.
  induction n as [|n IH]; intros m c; simpl; [reflexivity|].
  destruct (step c) as [c'|] eqn:Hs; [apply IH|].
  destruct m; simpl; [reflexivity | now rewrite Hs].
Qed.

Lemma run_idle : forall n s, run n (s, []) = (s, []).
Proof. intros [|n] s; reflexivity. Qed.

Lemma reachable_run : forall body u0 n c,
  reachable body u0 c -> reachable body u0 (run n c).
Proof.
  intros body u0 n; induction n as [|n IH]; intros c Hc; simpl; [exact Hc|].
  destruct (step c) as [c'|] eqn:Hs; [|exact Hc].
  apply IH. eapply reach_step; eassumption.
Qed.

Lemma step_keeps : forall c c',
  step c = Some c' ->
  first (fst c') = first (fst c) /\ posted (fst c') = posted (fst c).
Proof.
  intros [s stk] c' Hs. unfold step in Hs.
  destruct stk as [|[|[|k|u k|k]] rest]; try discriminate; simpl in Hs;
    try (destruct (negb (second s)));
    injection Hs as <-; split; reflexivity.
Qed.

Lemma run_keeps : forall n c,
  first (fst (run n c)) = first (fst c) /\
  posted (fst (run n c)) = posted (fst c).
Proof.
  induction n as [|n IH]; intros c; simpl; [split; reflexivity|].
  destruct (step c) as [c'|] eqn:Hs; [|split; reflexivity].
  destruct (IH c') as [-> ->]. exact (step_keeps _ Hs).
Qed.


(** ** Counting *)

Lemma balanced_step : forall c c',
  balanced c -> step c = Some c' -> balanced c'.
Proof.
  intros [s stk] c' (Hn & Hg & He) Hs. unfold step in Hs.
  unfold balanced, drives in *; simpl in *.
  destruct stk as [|[|[|k|u k|k]] rest]; try discriminate; simpl in Hs.
  - destruct (second s) eqn:Hb; simpl in Hs; injection Hs as <-;
      simpl in *.
    + split; [lia|]. split; [|reflexivity].
      destruct rest; [reflexivity | exact Hg].
    + split; [lia|]. split; [|discriminate].
      destruct rest; [reflexivity | exact Hg].
  - injection Hs as <-; simpl in *.
    destruct rest as [|g rest]; [discriminate|].
    split; [exact Hn|]. split; [exact Hg | discriminate].
  - injection Hs as <-; simpl in *.
    split; [exact Hn|]. split; [|discriminate].
    destruct rest; [discriminate | exact Hg].
  - injection Hs as <-; simpl in *.
    split; [exact Hn|]. split; [|discriminate].
    destruct rest; [discriminate | exact Hg].
  - injection Hs as <-; simpl in *.
    split; [lia|]. split; [|discriminate].
    destruct rest; [discriminate | exact Hg].
Qed.

Lemma balanced_reachable : forall body u0 c,
  reachable body u0 c -> balanced c.
Proof.
  intros body u0 c H; induction H as [|c c' _ IH Hs|s _ IH].
  - unfold balanced, drives; simpl. repeat split; try lia; discriminate.
  - eapply balanced_step; eassumption.
  - destruct IH as (Hn & _ & He). specialize (He eq_refl).
    unfold balanced, drives in *; simpl in *.
    rewrite He in *. repeat split; try lia; discriminate.
Qed.

(** When the loop is idle, the flag is false and the body has been
    started once more than the handle has been invoked, by the body or
    from outside. *)
Lemma idle_count : forall body u0 s,
  reachable body u0 (s, []) ->
  second s = false /\ entered s = S (resumed s + posted s).
Proof.
  intros body u0 s H. destruct (balanced_reachable H) as (Hn & _ & He).
  specialize (He eq_refl). simpl in He. split; [exact He|].
  unfold drives in Hn. simpl in Hn. rewrite He in Hn. lia.
Qed.

Lemma returned_count : forall body u0 n,
  snd (run n (loop body u0)) = [] ->
  entered (fst (run n (loop body u0)))
    = S (resumed (fst (run n (loop body u0)))).
Proof.
  intros body u0 n Hst.
  assert (Hr : reachable body u0 (run n (loop body u0)))
    by (apply reachable_run, reach_loop).
  destruct (run_keeps n (loop body u0)) as [_ Hp].
  destruct (run n (loop body u0)) as [s stk]; simpl in *; subst stk.
  destruct (idle_count Hr) as [_ He]. lia.
Qed.

(** ** Bodies that resume at most once *)




(** ** The machine and the drive routine of the specification *)

Lemma invoke_body_mono : forall (K K' : shared U -> option (shared U)) p s r,
  (forall s0 r0, K s0 = Some r0 -> K' s0 = Some r0) ->
  invoke_body K p s = Some r -> invoke_body K' p s = Some r.
Proof.
  intros K K' p; induction p as [|k IH|u k IH|k IH]; intros s r HK H;
    simpl in *; auto.
  destruct (K (count_resumed s)) as [s'|] eqn:Hk; [|discriminate].
  rewrite (HK _ _ Hk). auto.
Qed.

Lemma drive_routine_mono : forall fuel fuel' s r,
  fuel <= fuel' ->
  drive_routine fuel s = Some r -> drive_routine fuel' s = Some r.
Proof.
  induction fuel as [|fuel IH]; intros fuel' s r Hle H; [discriminate|].
  destruct fuel' as [|fuel']; [lia|]. simpl in *.
  destruct (negb (second s)); [|exact H].
  destruct (invoke_body (drive_routine fuel) _ _) as [s2|] eqn:Hb;
    [|discriminate].
  erewrite invoke_body_mono; [| |exact Hb].
  - apply IH; [lia | exact H].
  - intros s0 r0. apply IH. lia.
Qed.

(** Whatever the routine computes, the machine computes. *)
Lemma invoke_body_machine : forall (K : shared U -> option (shared U)) p s r,
  (forall s0 r0, K s0 = Some r0 ->
     forall rest, exists n, run n (s0, InDrive :: rest) = (r0, rest)) ->
  invoke_body K p s = Some r ->
  forall rest, exists n, run n (s, InBody p :: rest) = (r, rest).
Proof.
  intros K p; induction p as [|k IH|u k IH|k IH]; intros s r HK H rest;
    simpl in H.
  - injection H as <-. exists 1. reflexivity.
  - destruct (IH _ _ _ HK H rest) as [n Hn]. exists (S n). exact Hn.
  - destruct (IH _ _ HK H rest) as [n Hn]. exists (S n). exact Hn.
  - destruct (K (count_resumed s)) as [s'|] eqn:Hk; [|discriminate].
    destruct (HK _ _ Hk (InBody k :: rest)) as [n1 Hn1].
    destruct (IH _ _ HK H rest) as [n2 Hn2].
    exists (S (n1 + n2)). simpl. rewrite run_add, Hn1. exact Hn2.
Qed.

Lemma drive_routine_machine : forall fuel s r,
  drive_routine fuel s = Some r ->
  forall rest, exists n, run n (s, InDrive :: rest) = (r, rest).
Proof.
  induction fuel as [|fuel IH]; intros s r H rest; [discriminate|].
  simpl in H.
  destruct (negb (second s)) eqn:Hf.
  - destruct (invoke_body (drive_routine fuel) _ _) as [s2|] eqn:Hb;
      [|discriminate].
    destruct (@invoke_body_machine _ _ _ _ IH Hb (InDrive :: rest))
      as [n1 Hn1].
    destruct (IH _ _ H rest) as [n2 Hn2].
    exists (S (n1 + n2)). simpl. rewrite Hf. rewrite run_add, Hn1.
    exact Hn2.
  - injection H as <-. exists 1. simpl. rewrite Hf. reflexivity.
Qed.

(** Whenever the machine gets rid of its top frame, the routine computes
    the record it has then. *)
Lemma routine_of_mono : forall f fuel fuel' s r,
  fuel <= fuel' ->
  routine_of fuel f s = Some r -> routine_of fuel' f s = Some r.
Proof.
  intros [|p] fuel fuel' s r Hle H; simpl in *.
  - eapply drive_routine_mono; eassumption.
  - eapply invoke_body_mono; [|exact H].
    intros s0 r0. apply drive_routine_mono; exact Hle.
Qed.

Lemma machine_routine : forall n s f rest,
  snd (run n (s, f :: rest)) = [] ->
  exists m r fuel,
    m <= n /\ run m (s, f :: rest) = (r, rest) /\
    routine_of fuel f s = Some r.
Proof.
  induction n as [n IH] using lt_wf_ind; intros s f rest Hh.
  destruct n as [|n]; [discriminate|].
  (* continue after [m0] transitions that led to [(s1, g :: rest1)] *)
  assert (Hcont : forall m0 s1 g rest1,
            m0 <= n ->
            run (S n) (s, f :: rest) = run (n - m0) (s1, g :: rest1) ->
            exists m r fuel, m <= n - m0 /\
              run m (s1, g :: rest1) = (r, rest1) /\
              routine_of fuel g s1 = Some r).
  { intros m0 s1 g rest1 Hm Heq. apply IH; [lia|].
    rewrite <- Heq. exact Hh. }
  destruct f as [|[|k|u k|k]].
  - (* operator() *)
    destruct (second s) eqn:Hf.
    + exists 1, (set_second false s), 1. simpl. rewrite Hf. simpl.
      repeat split. lia.
    + destruct (Hcont 0 (count_entered (set_second true s))
                  (InBody (first s)) (InDrive :: rest))
        as (m1 & r1 & fuel1 & Hm1 & Hr1 & Hb1); [lia| |].
      { simpl. rewrite Hf. simpl. now rewrite Nat.sub_0_r. }
      destruct (Hcont m1 r1 InDrive rest)
        as (m2 & r2 & fuel2 & Hm2 & Hr2 & Hb2); [lia| |].
      { simpl. rewrite Hf. simpl.
        replace n with (m1 + (n - m1)) at 1 by lia.
        now rewrite run_add, Hr1. }
      exists (S (m1 + m2)), r2, (S (fuel1 + fuel2)).
      split; [lia|]. split.
      * simpl. rewrite Hf. simpl. now rewrite run_add, Hr1.
      * simpl. rewrite Hf. simpl.
        simpl in Hb1.
        erewrite invoke_body_mono; [| |exact Hb1].
        -- eapply drive_routine_mono; [|exact Hb2]. lia.
        -- intros s0 r0. apply drive_routine_mono. lia.
  - (* the body returns *)
    exists 1, s, 0. repeat split. lia.
  - destruct (Hcont 0 s (InBody (k (captures s))) rest)
      as (m1 & r1 & fuel1 & Hm1 & Hr1 & Hb1); [lia| |].
    { simpl. now rewrite Nat.sub_0_r. }
    exists (S m1), r1, fuel1. split; [lia|]. split; assumption.
  - destruct (Hcont 0 (set_captures u s) (InBody k) rest)
      as (m1 & r1 & fuel1 & Hm1 & Hr1 & Hb1); [lia| |].
    { simpl. now rewrite Nat.sub_0_r. }
    exists (S m1), r1, fuel1. split; [lia|]. split; assumption.
  - (* the body invokes its handle *)
    destruct (Hcont 0 (count_resumed s) InDrive (InBody k :: rest))
      as (m1 & r1 & fuel1 & Hm1 & Hr1 & Hb1); [lia| |].
    { simpl. now rewrite Nat.sub_0_r. }
    destruct (Hcont m1 r1 (InBody k) rest)
      as (m2 & r2 & fuel2 & Hm2 & Hr2 & Hb2); [lia| |].
    { simpl. replace n with (m1 + (n - m1)) at 1 by lia.
      now rewrite run_add, Hr1. }
    exists (S (m1 + m2)), r2, (fuel1 + fuel2).
    split; [lia|]. split.
    + simpl. now rewrite run_add, Hr1.
    + simpl in *.
      erewrite drive_routine_mono; [| |exact Hb1]; [|lia].
      eapply invoke_body_mono; [|exact Hb2].
      intros s0 r0. apply drive_routine_mono. lia.
Qed.

Lemma drive_routine_iff : forall s r,
  (exists n, run n (s, [InDrive]) = (r, []))
  <-> (exists fuel, drive_routine fuel s = Some r).
Proof.
  intros s r; split.
  - intros [n Hn].
    destruct (@machine_routine n s InDrive [])
      as (m & r' & fuel & Hm & Hr & Hb); [now rewrite Hn|].
    exists fuel. simpl in Hb. rewrite Hb. f_equal.
    replace n with (m + (n - m)) in Hn by lia.
    rewrite run_add, Hr, run_idle in Hn. congruence.
  - intros [fuel Hf]. exact (@drive_routine_machine _ _ _ Hf []).
Qed.

End LoopFacts.

Section LoopClaims.

Import Loop.

(** A body that asks synchronously for five more iterations is run six
    times by the constructor, one after the other. *)
Example count_to_5_runs :
  run 40 (loop (count_to 5) 0)
    = ({| first := count_to 5; second := false; captures := 5;
          entered := 6; resumed := 5; posted := 0 |}, []).
Proof. reflexivity. Qed.

(** A handle kept by the body and invoked later runs it once more. *)
Example count_to_5_called_later :
  run 40 (operator_call (fst (run 40 (loop (count_to 5) 0))))
    = ({| first := count_to 5; second := false; captures := 5;
          entered := 7; resumed := 5; posted := 1 |}, []).
Proof. reflexivity. Qed.

(** [twice]: the second invocation of the handle starts the body while
    the first body is still on the stack. *)
Example twice_nests :
  snd (run 7 (loop twice 0))
    = [InBody twice; InDrive; InBody Ret; InDrive].
Proof. reflexivity. Qed.

Example twice_runs :
  run 40 (loop twice 0)
    = ({| first := twice; second := false; captures := 1;
          entered := 3; resumed := 2; posted := 0 |}, []).
Proof. reflexivity. Qed.

(** Scenario S1: five answers at once, then four deferred ones: ten
    invocations of the body in all. *)
Example from_stream_runs :
  later 4 (run 40 (loop from_stream 0))
    = ({| first := from_stream; second := false; captures := 10;
          entered := 10; resumed := 5; posted := 4 |}, []).
Proof. vm_compute. reflexivity. Qed.

Example count_to_5_routine :
  drive_routine 7 (make_shared (count_to 5) 0)
    = Some (fst (run 40 (loop (count_to 5) 0))).
Proof. vm_compute. reflexivity. Qed.





(** C8: when a loop has returned from its constructor, all invocations
    of the handle having been made by the body, the body has been
    started exactly once more than the handle was invoked. *)
Theorem loop_body_count :
  forall (U : Type) (body : code U) (u0 : U) (n : nat),
    snd (run n (loop body u0)) = [] ->
    entered (fst (run n (loop body u0)))
      = S (resumed (fst (run n (loop body u0)))).
Proof.
  intros U body u0 n Hst. apply returned_count. exact Hst.
Qed.

Lemma loop_body_count_witness :
  snd (run 40 (loop (count_to 5) 0)) = [] /\
  resumed (fst (run 40 (loop (count_to 5) 0))) = 5 /\
  entered (fst (run 40 (loop (count_to 5) 0))) = 6.
Proof.
  split; [reflexivity|]. split; [reflexivity|].
  rewrite (@loop_body_count nat (count_to 5) 0 40); reflexivity.
Defined.

(** C2: the constructor makes the record [(body, false)] and enters
    [operator()]; its first transition sets the flag and starts the
    body, so the body has been started before the constructor returns.
    The constructor returns with a record exactly when the drive routine
    of the specification, run on the fresh record, returns with it, and
    so does every later invocation of the handle, run on the record as
    it is then; an invocation made by the body enters [operator()] on
    that same record. *)
Theorem loop_construction_and_drive :
  forall (U : Type) (body : code U) (u0 : U),
    loop body u0
      = ({| first := body; second := false; captures := u0;
            entered := 0; resumed := 0; posted := 0 |}, [InDrive]) /\
    step (loop body u0)
      = Some ({| first := body; second := true; captures := u0;
                 entered := 1; resumed := 0; posted := 0 |},
              [InBody body; InDrive]) /\
    (forall n, snd (run n (loop body u0)) = [] ->
               1 <= entered (fst (run n (loop body u0)))) /\
    (forall r : shared U,
       (exists n, run n (loop body u0) = (r, []))
       <-> (exists fuel,
              drive_routine fuel (make_shared body u0) = Some r)) /\
    (forall s r : shared U,
       (exists n, run n (operator_call s) = (r, []))
       <-> (exists fuel,
              drive_routine fuel (count_posted s) = Some r)) /\
    (forall (s : shared U) k rest,
       step (s, InBody (Next k) :: rest)
         = Some (count_resumed s, InDrive :: InBody k :: rest)).
Proof.
  intros U body u0.
  split; [reflexivity|]. split; [reflexivity|].
  split; [|split; [|split]].
  - intros n Hst. rewrite (returned_count body u0 n Hst). lia.
  - intros r. apply drive_routine_iff.
  - intros s r. apply drive_routine_iff.
  - reflexivity.
Qed.

End LoopClaims.

(* ================================================================== *)
(** * More about the loop                                              *)
(* ================================================================== *)

Section LoopMore.

Import Loop.

Variable U : Type.
Implicit Types (s r : shared U) (p body : code U).
Implicit Types (stk rest : list (frame U)).

(** X1: whenever a loop is idle - the constructor or an invocation of a
    stored handle has returned - its flag is false and the body has been
    started exactly once more than the handle has been invoked, counting
    the invocations made by the body and those made from outside. *)
Theorem loop_idle_invocations :
  forall (body : code U) (u0 : U) (s : shared U),
    reachable body u0 (s, []) ->
    second s = false /\ entered s = S (resumed s + posted s).
Proof. intros body u0 s H. exact (idle_count H). Qed.

(** A body that does not invoke its handle runs to its end and touches
    nothing but its captures. *)
Lemma silent_body_returns : forall p s rest,
  silent p ->
  exists n u', run n (s, InBody p :: rest) = (set_captures u' s, rest).
Proof.
  induction p as [|k IH|u k IH|k IH]; intros s rest Hp; simpl in Hp.
  - exists 1, (captures s). destruct s; reflexivity.
  - destruct (IH (captures s) s rest (Hp _)) as (n & u' & Hn).
    exists (S n), u'. exact Hn.
  - destruct (IH (set_captures u s) rest Hp) as (n & u' & Hn).
    exists (S n), u'. simpl. rewrite Hn. reflexivity.
  - contradiction.
Qed.

(** X2: entered while the flag is false, [operator()] of a loop whose
    body never invokes its handle runs the body exactly once and
    returns, leaving the flag false.  This covers the constructor and
    every later invocation of a stored handle. *)
Theorem loop_silent_body_runs_once :
  forall (s : shared U),
    silent (first s) -> second s = false ->
    exists n u',
      run n (s, [InDrive])
        = ({| first := first s; second := false; captures := u';
              entered := S (entered s); resumed := resumed s;
              posted := posted s |}, []).
Proof.
  intros s Hp Hf.
  destruct (@silent_body_returns (first s)
              (count_entered (set_second true s)) [InDrive] Hp)
    as (n & u' & Hn).
  exists (1 + (n + 1)), u'.
  rewrite run_add. simpl run at 2. rewrite Hf. simpl.
  rewrite run_add, Hn. reflexivity.
Qed.

(** Run with a handle whose calls return with the flag false, a body
    returns with the flag false as soon as it has invoked the handle or
    has found the flag false. *)
Lemma invoke_body_keeps : forall (K : shared U -> option (shared U)) p s r,
  (forall s0 r0, K s0 = Some r0 ->
     second r0 = false /\ first r0 = first s0) ->
  invoke_body K p s = Some r ->
  first r = first s /\
  (resumes p \/ second s = false -> second r = false).
Proof.
  intros K p; induction p as [|k IH|u k IH|k IH]; intros s r HK H;
    simpl in H.
  - injection H as <-. split; [reflexivity|]. intros [[] | Hf]. exact Hf.
  - destruct (IH _ _ _ HK H) as [Hb Hr]. split; [exact Hb|].
    intros [Hp | Hf]; apply Hr; [left; apply Hp | right; exact Hf].
  - destruct (IH _ _ HK H) as [Hb Hr]. split; [exact Hb | exact Hr].
  - destruct (K (count_resumed s)) as [s'|] eqn:Hk; [|discriminate].
    destruct (HK _ _ Hk) as [Hf' Hb'].
    destruct (IH _ _ HK H) as [Hb Hr].
    split; [rewrite Hb, Hb'; reflexivity|].
    intros _. apply Hr. right. exact Hf'.
Qed.

(** Every [operator()] that returns leaves the flag false. *)
Lemma drive_routine_keeps : forall fuel s r,
  drive_routine fuel s = Some r ->
  second r = false /\ first r = first s.
Proof.
  induction fuel as [|fuel IH]; intros s r H; [discriminate|].
  simpl in H. destruct (negb (second s)) eqn:Hf.
  - destruct (invoke_body (drive_routine fuel) _ _) as [s2|] eqn:Hb;
      [|discriminate].
    destruct (@invoke_body_keeps _ _ _ _ IH Hb) as [Hb2 _].
    destruct (IH _ _ H) as [Hr1 Hr2]. split; [exact Hr1|].
    rewrite Hr2, Hb2. reflexivity.
  - injection H as <-. split; reflexivity.
Qed.

(** A body that always invokes its handle leaves the flag false, so the
    [while] goes round again, whatever the fuel. *)
Lemma drive_routine_never_returns : forall fuel s,
  resumes (first s) -> second s = false -> drive_routine fuel s = None.
Proof.
  induction fuel as [|fuel IH]; intros s Hp Hf; [reflexivity|].
  simpl. rewrite Hf. simpl.
  destruct (invoke_body (drive_routine fuel) _ _) as [s2|] eqn:Hb;
    [|reflexivity].
  destruct (@invoke_body_keeps _ _ _ _ (@drive_routine_keeps fuel) Hb)
    as [Hb2 Hr2].
  apply IH.
  - rewrite Hb2. exact Hp.
  - apply Hr2. left. exact Hp.
Qed.

(** X3: the constructor of a loop whose body invokes its handle
    synchronously in every invocation never returns - and neither does
    a later invocation of the handle made while the loop is idle. *)
Theorem loop_resuming_body_never_returns :
  forall (s : shared U) (n : nat),
    resumes (first s) -> second s = false ->
    snd (run n (s, [InDrive])) <> [].
Proof.
  intros s n Hp Hf Hidle.
  destruct (@machine_routine U n s InDrive [] Hidle)
    as (m & r & fuel & _ & _ & Hr).
  simpl in Hr. rewrite (drive_routine_never_returns fuel s Hp Hf) in Hr.
  discriminate.
Qed.

End LoopMore.

Section LoopMoreWitnesses.

Import Loop.

Lemma loop_idle_invocations_witness :
  reachable (count_to 5) 0
    ({| first := count_to 5; second := false; captures := 5;
        entered := 7; resumed := 5; posted := 1 |}, []) /\
  7 = S (5 + 1).
Proof.
  assert (Hr : reachable (count_to 5) 0
                 ({| first := count_to 5; second := false; captures := 5;
                     entered := 7; resumed := 5; posted := 1 |}, [])).
  { assert (H1 : reachable (count_to 5) 0 (run 40 (loop (count_to 5) 0)))
      by apply reachable_run, reach_loop.
    rewrite count_to_5_runs in H1.
    assert (H2 := reachable_run 40 (reach_call H1)).
    replace (run 40 (operator_call
                       {| first := count_to 5; second := false;
                          captures := 5; entered := 6; resumed := 5;
                          posted := 0 |}))
      with ({| first := count_to 5; second := false; captures := 5;
               entered := 7; resumed := 5; posted := 1 |},
            @nil (frame nat)) in H2
      by (vm_compute; reflexivity).
    exact H2. }
  split; [exact Hr|].
  exact (proj2 (loop_idle_invocations Hr)).
Defined.

Lemma loop_silent_body_runs_once_witness :
  silent (first (make_shared bump 0)) /\
  exists n u',
    run n (loop bump 0)
      = ({| first := bump; second := false; captures := u';
            entered := 1; resumed := 0; posted := 0 |}, []).
Proof.
  assert (Hs : silent (first (make_shared bump 0)))
    by (simpl; intros u; exact I).
  split; [exact Hs|].
  exact (loop_silent_body_runs_once (make_shared bump 0) Hs eq_refl).
Defined.

Lemma loop_resuming_body_never_returns_witness :
  resumes (first (make_shared forever 0)) /\
  snd (run 100 (loop forever 0)) <> [].
Proof.
  assert (Hp : resumes (first (make_shared forever 0)))
    by (simpl; intros u; exact I).
  split; [exact Hp|].
  exact (@loop_resuming_body_never_returns nat (make_shared forever 0) 100
           Hp eq_refl).
Defined.

End LoopMoreWitnesses.

(* ================================================================== *)
(** * Properties of the result cell                                    *)
(* ================================================================== *)

Section ResultFacts.

Import Result.

Variables T W : Type.
Implicit Types (c : cell T W) (d : data_t T W) (o : op T).

(** Without owners nothing can be done to the cell. *)
Lemma apply_no_owner : forall o c,
  handles c = 0 -> setters c = 0 -> apply o c = None.
Proof.
  intros o c Hh Hs. destruct o; simpl; rewrite ?Hh, ?Hs; reflexivity.
Qed.

Lemma value_after_cons : forall o ops (v : T),
  value_after v (o :: ops) = value_after (mutation o v) ops.
Proof. reflexivity. Qed.

Lemma release_settled : forall h s v cb w c,
  ptr c = Some {| data := v; callback := cb |} ->
  finalized c = [] -> world c = w ->
  settled v cb w (release h s c).
Proof.
  intros h s v cb w c Hp Hf Hw. unfold release, settled, use_count.
  rewrite Hp. destruct (h + s) eqn:Hsum; simpl.
  - right. rewrite Hf, Hw. repeat split.
  - left. rewrite Hf, Hw. repeat split. lia.
Qed.

Lemma apply_settled : forall o v cb w c c',
  ptr c = Some {| data := v; callback := cb |} ->
  finalized c = [] -> world c = w ->
  apply o c = Some c' -> settled (mutation o v) cb w c'.
Proof.
  intros o v cb w c c' Hp Hf Hw Ha.
  destruct o as [| |f| | |X dst x|]; simpl in Ha.
  - destruct (handles c) eqn:Hh; [discriminate|]. injection Ha as <-.
    left. unfold use_count; simpl. repeat split; auto. lia.
  - destruct (handles c) eqn:Hh; [discriminate|]. injection Ha as <-.
    now apply release_settled.
  - destruct (handles c) eqn:Hh; [discriminate|].
    unfold store in Ha. rewrite Hp in Ha. injection Ha as <-.
    left. unfold use_count; simpl. rewrite Hh. repeat split; auto. lia.
  - destruct (handles c) eqn:Hh; [discriminate|]. injection Ha as <-.
    left. unfold use_count; simpl. repeat split; auto. lia.
  - destruct (setters c) eqn:Hs; [discriminate|]. injection Ha as <-.
    left. unfold use_count; simpl. repeat split; auto. lia.
  - destruct (setters c) eqn:Hs; [discriminate|].
    unfold store in Ha. rewrite Hp in Ha. injection Ha as <-.
    left. unfold use_count; simpl. rewrite Hs. repeat split; auto. lia.
  - destruct (setters c) eqn:Hs; [discriminate|]. injection Ha as <-.
    now apply release_settled.
Qed.

Lemma runs_settled : forall ops v cb w c c',
  ptr c = Some {| data := v; callback := cb |} ->
  finalized c = [] -> world c = w -> 0 < use_count c ->
  runs ops c = Some c' -> settled (value_after v ops) cb w c'.
Proof.
  induction ops as [|o ops IH]; intros v cb w c c' Hp Hf Hw Hu Hr;
    simpl in Hr.
  - injection Hr as <-. left. repeat split; assumption.
  - destruct (apply o c) as [c1|] eqn:Ha; [|discriminate].
    rewrite value_after_cons.
    destruct (@apply_settled o v cb w c c1 Hp Hf Hw Ha)
      as [(Hp1 & Hu1 & Hf1 & Hw1) | (Hp1 & Hh1 & Hs1 & Hf1 & Hw1)].
    + eapply IH; eassumption.
    + destruct ops as [|o' ops]; simpl in Hr.
      * injection Hr as <-. right. repeat split; assumption.
      * rewrite (@apply_no_owner o' c1 Hh1 Hs1) in Hr. discriminate.
Qed.

Lemma result_settled : forall cb v0 w0 ops c,
  runs ops (result cb v0 w0) = Some c ->
  settled (value_after v0 ops) cb w0 c.
Proof.
  intros cb v0 w0 ops c Hr.
  eapply runs_settled; try exact Hr; try reflexivity.
  unfold use_count; simpl; lia.
Qed.

(** The value left by a whole assignment that no later mutation
    follows. *)
Lemma value_after_assign : forall ops1 ops2 (v0 v : T),
  forallb (fun o => negb (mutates o)) ops2 = true ->
  value_after v0 (ops1 ++ assign v :: ops2) = v.
Proof.
  intros ops1 ops2 v0 v Hq. unfold value_after.
  rewrite fold_left_app. simpl.
  generalize dependent v.
  induction ops2 as [|o ops2 IH]; intros v; simpl in *; [reflexivity|].
  apply andb_prop in Hq. destruct Hq as [Ho Hq].
  destruct o; simpl in *; try discriminate; apply IH; assumption.
Qed.

End ResultFacts.

Section ResultClaims.

Import Result.

(** Scenario S2: the finalizer gets [(10, 20)] when the cell and both
    setters are gone, and not before. *)
Example fan_in_delivers :
  runs fan_in (result (fun v w => v :: w) (0, 0) [])
    = Some {| ptr := None; handles := 0; setters := 0;
              world := [(10, 20)]; finalized := [(10, 20)] |}.
Proof. reflexivity. Qed.

Example fan_in_waits :
  runs (firstn 6 fan_in) (result (fun v w => v :: w) (0, 0) [])
    = Some {| ptr := Some {| data := (10, 20);
                             callback := fun v w => v :: w |};
              handles := 0; setters := 1;
              world := []; finalized := [] |}.
Proof. reflexivity. Qed.

(** C3: whatever the owners of a result cell do, while it has an owner
    the finalizer has not been invoked; once the last owner is dropped
    it has been invoked exactly once, with the value the cell held at
    that moment - all mutations applied, so the value of the latest
    whole assignment if no mutation followed it - and nothing can be
    done to the cell any more, so it is never invoked again. *)
Theorem result_finalizer_once :
  forall (T W : Type) (cb : T -> W -> W) (v0 : T) (w0 : W)
         (ops : list (op T)) (c : cell T W),
    runs ops (result cb v0 w0) = Some c ->
    (0 < use_count c -> finalized c = [] /\ world c = w0) /\
    (use_count c = 0 ->
       finalized c = [value_after v0 ops] /\
       world c = cb (value_after v0 ops) w0 /\
       forall o, apply o c = None) /\
    (forall ops1 ops2 v,
       ops = ops1 ++ assign v :: ops2 ->
       forallb (fun o => negb (mutates o)) ops2 = true ->
       value_after v0 ops = v).
Proof.
  intros T W cb v0 w0 ops c Hr.
  destruct (@result_settled T W cb v0 w0 ops c Hr)
    as [(Hp & Hu & Hf & Hw) | (Hp & Hh & Hs & Hf & Hw)].
  - split; [intros _; split; assumption|]. split.
    + intros H0. lia.
    + intros ops1 ops2 v -> Hq. now apply value_after_assign.
  - split.
    + unfold use_count. rewrite Hh, Hs. intros H0. inversion H0.
    + split.
      * intros _. split; [exact Hf|]. split; [exact Hw|].
        intros o. now apply apply_no_owner.
      * intros ops1 ops2 v -> Hq. now apply value_after_assign.
Qed.

Lemma result_finalizer_once_witness :
  runs (assign (1, 2) :: fan_in) (result (fun v w => v :: w) (0, 0) [])
    = Some {| ptr := None; handles := 0; setters := 0;
              world := [(10, 20)]; finalized := [(10, 20)] |} /\
  finalized {| ptr := None; handles := 0; setters := 0;
               world := [(10, 20)]; finalized := [(10, 20)] |}
    = [value_after (0, 0) (assign (1, 2) :: fan_in)].
Proof.
  split; [reflexivity|].
  apply (@result_finalizer_once (nat * nat) (list (nat * nat))
           (fun v w => v :: w) (0, 0) [] (assign (1, 2) :: fan_in)
           {| ptr := None; handles := 0; setters := 0;
              world := [(10, 20)]; finalized := [(10, 20)] |}
           eq_refl).
  reflexivity.
Defined.



End ResultClaims.

(* ================================================================== *)
(** * More about the result cell                                       *)
(* ================================================================== *)

Section ResultMore.

Import Result.

Variables T W : Type.
Implicit Types (c : cell T W) (o : op T).

Lemma release_count : forall h s c, use_count (release h s c) = h + s.
Proof.
  intros h s c. unfold release, use_count.
  destruct (h + s) eqn:Hsum; [destruct (ptr c)|]; simpl; lia.
Qed.

Lemma apply_count : forall o c c',
  apply o c = Some c' ->
  use_count c' + releases o = use_count c + acquires o.
Proof.
  intros o c c' Ha. destruct o as [| |f| | |X dst x|]; simpl in Ha.
  - destruct (handles c) eqn:Hh; [discriminate|]. injection Ha as <-.
    unfold use_count; simpl. lia.
  - destruct (handles c) eqn:Hh; [discriminate|]. injection Ha as <-.
    rewrite release_count. unfold use_count. rewrite Hh. simpl. lia.
  - destruct (handles c) eqn:Hh; [discriminate|].
    unfold store in Ha. destruct (ptr c); [|discriminate].
    injection Ha as <-. unfold use_count; simpl. lia.
  - destruct (handles c) eqn:Hh; [discriminate|]. injection Ha as <-.
    unfold use_count; simpl. lia.
  - destruct (setters c) eqn:Hs; [discriminate|]. injection Ha as <-.
    unfold use_count; simpl. lia.
  - destruct (setters c) eqn:Hs; [discriminate|].
    unfold store in Ha. destruct (ptr c); [|discriminate].
    injection Ha as <-. unfold use_count; simpl. lia.
  - destruct (setters c) eqn:Hs; [discriminate|]. injection Ha as <-.
    rewrite release_count. unfold use_count. rewrite Hs. simpl. lia.
Qed.

Lemma runs_count : forall ops c c',
  runs ops c = Some c' ->
  use_count c' + released ops = use_count c + acquired ops.
Proof.
  induction ops as [|o ops IH]; intros c c' Hr; simpl in Hr.
  - injection Hr as <-. unfold released, acquired; simpl. lia.
  - destruct (apply o c) as [c1|] eqn:Ha; [|discriminate].
    pose proof (apply_count _ _ Ha). pose proof (IH _ _ Hr).
    unfold released, acquired in *; simpl. lia.
Qed.

(** X8: the reference count does the counting: after any operations on
    a result cell, its owners are the original handle plus the owners
    made minus the owners given up, and the finalizer has been invoked
    exactly when one more owner has been given up than was made. *)
Theorem result_owner_accounting :
  forall (cb : T -> W -> W) (v0 : T) (w0 : W) (ops : list (op T))
         (c : cell T W),
    runs ops (result cb v0 w0) = Some c ->
    use_count c + released ops = 1 + acquired ops /\
    (finalized c <> [] <-> released ops = S (acquired ops)) /\
    (finalized c = [] <-> released ops <= acquired ops).
Proof.
  intros cb v0 w0 ops c Hr.
  pose proof (runs_count _ _ Hr) as Hn.
  change (use_count (result cb v0 w0)) with 1 in Hn.
  split; [exact Hn|].
  destruct (@result_settled T W cb v0 w0 ops c Hr)
    as [(Hp & Hu & Hf & Hw) | (Hp & Hh & Hs & Hf & Hw)].
  - rewrite Hf. split; split; intros H; try lia; try reflexivity.
    contradiction.
  - rewrite Hf. unfold use_count in Hn. rewrite Hh, Hs in Hn.
    split; split; intros H; try lia; try discriminate.
Qed.

Lemma runs_app : forall ops1 ops2 c,
  runs (ops1 ++ ops2) c
    = match runs ops1 c with
      | Some c' => runs ops2 c'
      | None => None
      end.
Proof.
  induction ops1 as [|o ops1 IH]; intros ops2 c; simpl; [reflexivity|].
  destruct (apply o c); [apply IH | reflexivity].
Qed.

(** X9: setters bound to members that do not overlap can be invoked in
    either order: exchanging two neighbouring invocations anywhere in a
    sequence of operations changes neither whether the sequence can be
    run nor the cell it leaves - so the finalizer gets the same value
    whichever producer answers first. *)
Theorem result_setters_commute :
  forall (X Y : Type) (f : field T X) (g : field T Y) (x : X) (y : Y)
         (before after : list (op T)) (c : cell T W),
    independent f g ->
    runs (before ++ call_setter f x :: call_setter g y :: after) c
      = runs (before ++ call_setter g y :: call_setter f x :: after) c.
Proof.
  intros X Y f g x y before after c Hind.
  rewrite !runs_app. destruct (runs before c) as [c1|]; [|reflexivity].
  simpl. destruct (setters c1) eqn:Hs; [reflexivity|].
  unfold store. destruct (ptr c1) as [d|]; [|reflexivity].
  simpl. rewrite Hs. simpl. rewrite Hind. reflexivity.
Qed.

End ResultMore.

Section ResultMoreClaims.

Import Result.

Lemma result_owner_accounting_witness :
  runs fan_in (result (fun v w => v :: w) (0, 0) [])
    = Some {| ptr := None; handles := 0; setters := 0;
              world := [(10, 20)]; finalized := [(10, 20)] |} /\
  released fan_in = S (acquired fan_in).
Proof.
  split; [reflexivity|].
  apply (proj1 (proj2 (@result_owner_accounting (nat * nat)
                         (list (nat * nat)) (fun v w => v :: w) (0, 0) []
                         fan_in _ eq_refl))).
  discriminate.
Defined.

Lemma result_setters_commute_witness :
  independent (pair_first nat nat) (pair_second nat nat) /\
  runs [setter; setter; destroy;
        call_setter (pair_first nat nat) 10;
        call_setter (pair_second nat nat) 20;
        drop_setter; drop_setter]
       (result (fun v w => v :: w) (0, 0) [])
    = runs [setter; setter; destroy;
            call_setter (pair_second nat nat) 20;
            call_setter (pair_first nat nat) 10;
            drop_setter; drop_setter]
           (result (fun v w => v :: w) (0, 0) []).
Proof.
  assert (Hi : independent (pair_first nat nat) (pair_second nat nat))
    by (intros x y t; reflexivity).
  split; [exact Hi|].
  exact (@result_setters_commute (nat * nat) (list (nat * nat)) nat nat
           (pair_first nat nat) (pair_second nat nat) 10 20
           [setter; setter; destroy] [drop_setter; drop_setter]
           (result (fun v w => v :: w) (0, 0) []) Hi).
Defined.

End ResultMoreClaims.

(* ================================================================== *)
(** * Properties of the slot                                           *)
(* ================================================================== *)

Section SlotFacts.

Import Slot.

Variables T E : Type.
Implicit Types (s : state T E) (d : data T E) (stk rest : list (frame T E)).

Lemma sound_release : forall h l s stk s' stk',
  sound s -> h + l < use_count s ->
  release h l s stk = Go s' stk' -> sound s'.
Proof.
  intros h l s stk s' stk' [Hu Hx] Hlt Hr. unfold release in Hr.
  assert (Hp : ptr s <> None) by (intros H; apply Hu in H; lia).
  destruct (ptr s) as [d|] eqn:Hd; [|contradiction].
  destruct (h + l) eqn:Hsum.
  - destruct (who_awaits_request d); injection Hr as <- _;
      (split; [unfold use_count; simpl; tauto | discriminate]).
  - injection Hr as <- _. split.
    + unfold use_count; simpl. split; [discriminate | lia].
    + simpl. exact Hx.
Qed.

Lemma sound_step : forall s stk s' stk',
  sound s -> step s stk = Go s' stk' -> sound s'.
Proof.
  intros s stk s' stk' Hs Hst. pose proof Hs as [Hu Hx].
  unfold step in Hst.
  destruct stk as [|[[|e k|h k|r k|v k|k|k]|] rest]; try discriminate.
  - injection Hst as <- _. exact Hs.
  - injection Hst as <- _. exact Hs.
  - unfold request in Hst.
    destruct (handles s) eqn:Hh; [discriminate|].
    destruct (ptr s) as [d|] eqn:Hd; [|discriminate].
    destruct (who_awaits_data d); [discriminate|].
    destruct (who_awaits_request d); injection Hst as <- _;
      (split; [unfold use_count in *; simpl;
               split; [discriminate | lia]
              |simpl; intros d' Hd'; injection Hd' as <-; now left]).
  - unfold await in Hst.
    destruct (ptr s) as [d|] eqn:Hd.
    + destruct (who_awaits_request d) eqn:Hr; [discriminate|].
      destruct (who_awaits_data d) eqn:Hw; injection Hst as <- _.
      * split; [unfold use_count; simpl; split; [discriminate | lia]|].
        simpl. exact Hx.
      * split; [unfold use_count; simpl; split; [discriminate | lia]|].
        simpl. intros d' Hd'; injection Hd' as <-; now right.
    + injection Hst as <- _. split; [|discriminate].
      unfold use_count in *; simpl. tauto.
  - unfold deliver in Hst.
    destruct (ptr s) as [d|] eqn:Hd.
    + destruct (who_awaits_data d) eqn:Hw; [|discriminate].
      injection Hst as <- _.
      split; [unfold use_count; simpl; split; [discriminate | lia]|].
      simpl. intros d' Hd'; injection Hd' as <-; now right.
    + injection Hst as <- _. exact Hs.
  - destruct (handles s) eqn:Hh; [discriminate|]. injection Hst as <- _.
    split; [|exact Hx].
    unfold use_count in *; simpl. rewrite Hh in Hu.
    split; [intros H; apply Hu in H; lia | lia].
  - destruct (handles s) eqn:Hh; [discriminate|].
    eapply sound_release; [exact Hs| |exact Hst].
    unfold use_count. lia.
  - destruct (locks s) eqn:Hl; [discriminate|].
    eapply sound_release; [exact Hs| |exact Hst].
    unfold use_count. lia.
Qed.

Lemma sound_reachable : forall main s stk,
  reachable main s stk -> sound s.
Proof.
  intros main s stk H; induction H as [|s stk s' stk' _ IH Hst].
  - split; [|intros d Hd; injection Hd as <-; now left].
    unfold use_count; simpl. split; [discriminate | lia].
  - eapply sound_step; eassumption.
Qed.

Lemma reachable_after_run : forall main n s stk s' stk',
  reachable main s stk -> run n s stk = Go s' stk' ->
  reachable main s' stk'.
Proof.
  intros main n; induction n as [|n IH]; intros s stk s' stk' Hr Hn;
    simpl in Hn.
  - injection Hn as <- <-. exact Hr.
  - destruct (step s stk) as [s1 stk1| | |] eqn:Hst; try discriminate.
    eapply IH; [|exact Hn]. eapply reach_step; eassumption.
Qed.

Lemma run_then : forall n m s stk,
  run (n + m) s stk
    = match run n s stk with
      | Go s' stk' => run m s' stk'
      | o => o
      end.
Proof.
  induction n as [|n IH]; intros m s stk; simpl; [reflexivity|].
  destruct (step s stk); try reflexivity. apply IH.
Qed.

Lemma run_emits : forall es s k rest,
  run (length es) s (call (emits es k) :: rest)
    = Go (logged es s) (call k :: rest).
Proof.
  induction es as [|e es IH]; intros s k rest; simpl.
  - unfold logged; simpl. rewrite app_nil_r. destruct s; reflexivity.
  - rewrite IH. unfold logged; simpl. rewrite <- app_assoc. reflexivity.
Qed.

(** Once destroyed, the object does not come back. *)
Lemma dead_step : forall s stk s' stk',
  ptr s = None -> step s stk = Go s' stk' -> ptr s' = None.
Proof.
  intros s stk s' stk' Hd Hst. unfold step in Hst.
  destruct stk as [|[[|e k|h k|r k|v k|k|k]|] rest]; try discriminate;
    unfold request, await, deliver, release in Hst; rewrite ?Hd in Hst.
  - injection Hst as <- _. simpl; congruence.
  - injection Hst as <- _. simpl; congruence.
  - destruct (handles s); discriminate.
  - injection Hst as <- _. simpl; congruence.
  - injection Hst as <- _. simpl; congruence.
  - destruct (handles s); [discriminate|].
    injection Hst as <- _. simpl; congruence.
  - destruct (handles s) as [|h]; [discriminate|].
    destruct (h + locks s); injection Hst as <- _; simpl; congruence.
  - destruct (locks s) as [|l]; [discriminate|].
    destruct (handles s + l); injection Hst as <- _; simpl; congruence.
Qed.

(** The transition that destroys the object is the release of its last
    strong owner. *)
Lemma destroying_step : forall s stk s' stk' d,
  step s stk = Go s' stk' -> ptr s = Some d -> ptr s' = None ->
  match who_awaits_request d with
  | Some r =>
      stk' = call (r true) :: resume stk /\
      trace s' = trace s ++ [called_request true]
  | None => stk' = resume stk /\ trace s' = trace s
  end /\
  use_count s = 1 /\ use_count s' = 0 /\
  ((exists k rest, stk = call (Drop k) :: rest) \/
   (exists rest, stk = unlock :: rest)).
Proof.
  intros s stk s' stk' d Hst Hd Hn. unfold step in Hst.
  destruct stk as [|[[|e k|h k|r k|v k|k|k]|] rest]; try discriminate;
    unfold request, await, deliver, release in Hst; rewrite ?Hd in Hst.
  - injection Hst as <- _. congruence.
  - injection Hst as <- _. simpl in Hn. congruence.
  - destruct (handles s); [discriminate|].
    destruct (who_awaits_data d); [discriminate|].
    destruct (who_awaits_request d); injection Hst as <- _; discriminate.
  - destruct (who_awaits_request d); [discriminate|].
    destruct (who_awaits_data d); injection Hst as <- _;
      simpl in Hn; congruence.
  - destruct (who_awaits_data d); [|discriminate].
    injection Hst as <- _. discriminate.
  - destruct (handles s); [discriminate|].
    injection Hst as <- _. simpl in Hn. congruence.
  - unfold use_count.
    destruct (handles s) as [|h]; [discriminate|].
    destruct (h + locks s) eqn:Hsum.
    + split; [|split; [lia|split; [|left; eauto]]].
      * destruct (who_awaits_request d); injection Hst as <- <-;
          split; reflexivity.
      * destruct (who_awaits_request d); injection Hst as <- _;
          reflexivity.
    + injection Hst as <- _. simpl in Hn. congruence.
  - unfold use_count.
    destruct (locks s) as [|l]; [discriminate|].
    destruct (handles s + l) eqn:Hsum.
    + split; [|split; [lia|split; [|right; eauto]]].
      * destruct (who_awaits_request d); injection Hst as <- <-;
          split; reflexivity.
      * destruct (who_awaits_request d); injection Hst as <- _;
          reflexivity.
    + injection Hst as <- _. simpl in Hn. congruence.
Qed.

End SlotFacts.

Section SlotClaims.

Import Slot.

(** The two orders of the rendezvous end alike. *)
Example rendezvous_producer_first :
  run 20 slot [call producer_first]
    = Halt {| ptr := Some {| who_awaits_request := None;
                             who_awaits_data := None |};
              handles := 1; locks := 0;
              trace := [called_request false; called_data 7; emitted 7] |}.
Proof. reflexivity. Qed.

Example rendezvous_consumer_first :
  run 20 slot [call consumer_first]
    = Halt {| ptr := Some {| who_awaits_request := None;
                             who_awaits_data := None |};
              handles := 1; locks := 0;
              trace := [called_request false; called_data 7; emitted 7] |}.
Proof. reflexivity. Qed.

(** Scenario S5: the parked producer is told that the consumer is
    gone. *)
Example abandoned_terminates :
  run 20 slot [call abandoned]
    = Halt {| ptr := None; handles := 0; locks := 0;
              trace := [called_request true; emitted 0] |}.
Proof. reflexivity. Qed.

Example abandoned_idle_is_quiet :
  run 20 slot [call abandoned_idle]
    = Halt {| ptr := None; handles := 0; locks := 0; trace := [] |}.
Proof. reflexivity. Qed.

(** A request made by the delivered callback is served by the next
    delivery. *)
Example chained_deliveries :
  run 20 slot [call chained]
    = Halt {| ptr := Some {| who_awaits_request := None;
                             who_awaits_data := None |};
              handles := 1; locks := 0;
              trace := [called_data 1; emitted 1;
                        called_data 2; emitted 2] |}.
Proof. reflexivity. Qed.

(** The assertions. *)
Example contract_violations :
  run 20 slot [call deliver_unasked] = Abort /\
  run 20 slot [call double_request] = Abort /\
  run 20 slot [call double_await] = Abort.
Proof. repeat split. Qed.

Lemma dead_run : forall (T E : Type) n (s s' : state T E) stk stk',
  ptr s = None -> run n s stk = Go s' stk' -> ptr s' = None.
Proof.
  intros T E n; induction n as [|n IH]; intros s s' stk stk' Hd Hn;
    simpl in Hn.
  - injection Hn as <- _. exact Hd.
  - destruct (step s stk) as [s1 stk1| | |] eqn:Hst; try discriminate.
    eapply IH; [|exact Hn]. eapply dead_step; eassumption.
Qed.

(** C4: the transition that destroys the record of a slot invokes the
    request-waiting callback registered on it, with [terminate = true],
    once, before anything else runs; with no such callback registered
    it invokes nothing.  That transition is the release of the last
    strong owner, and the record is never destroyed a second time. *)
Theorem slot_destruction_notifies :
  forall (T E : Type) (s s' : state T E) (stk stk' : list (frame T E))
         (d : data T E),
    step s stk = Go s' stk' -> ptr s = Some d -> ptr s' = None ->
    (forall r, who_awaits_request d = Some r ->
       stk' = call (r true) :: resume stk /\
       trace s' = trace s ++ [called_request true]) /\
    (who_awaits_request d = None ->
       stk' = resume stk /\ trace s' = trace s) /\
    (use_count s = 1 /\ use_count s' = 0 /\
     ((exists k rest, stk = call (Drop k) :: rest) \/
      (exists rest, stk = unlock :: rest))) /\
    (forall n s'' stk'', run n s' stk' = Go s'' stk'' -> ptr s'' = None).
Proof.
  intros T E s s' stk stk' d Hst Hd Hn.
  destruct (@destroying_step T E s stk s' stk' d Hst Hd Hn) as [H Hlast].
  split; [|split; [|split]].
  - intros r Hr. rewrite Hr in H. exact H.
  - intros Hr. rewrite Hr in H. exact H.
  - exact Hlast.
  - intros n s'' stk'' Hrun. eapply dead_run; eassumption.
Qed.

Lemma slot_destruction_notifies_witness :
  run 2 slot [call abandoned] = Go (parked answer_7) [call (Drop Ret)] /\
  step (parked answer_7) [call (Drop Ret)]
    = Go {| ptr := None; handles := 0; locks := 0;
            trace := [called_request true] |}
         [call (answer_7 true); call Ret] /\
  [call (answer_7 true); call Ret]
    = call (answer_7 true) :: resume [call (Drop Ret)] /\
  [@called_request nat nat true] = [] ++ [called_request true].
Proof.
  split; [reflexivity|]. split; [reflexivity|].
  apply (@slot_destruction_notifies nat nat (parked answer_7)
           {| ptr := None; handles := 0; locks := 0;
              trace := [called_request true] |}
           [call (Drop Ret)] [call (answer_7 true); call Ret]
           {| who_awaits_request := Some answer_7;
              who_awaits_data := None |}
           eq_refl eq_refl eq_refl).
  reflexivity.
Defined.

(** C5: wherever a program calls [await(r)],
    - if the record is gone - which is exactly when it has no strong
      owner - [r(true)] is invoked at once and nothing is stored;
    - if a data-waiting callback is registered, [r(false)] is invoked
      at once and the record is left as it is;
    - if none is registered, and no request-waiting callback either,
      [r] is stored as the request-waiting callback and nothing is
      invoked: when [await] has returned the record holds [r] and the
      trace is the same;
    and every call of [await] that passes its assertion is one of these
    three. *)
Theorem provider_await_cases :
  forall (T E : Type) (main : code T E) (s : state T E)
         (r : bool -> code T E) (k : code T E) (rest : list (frame T E)),
    reachable main s (call (Await r k) :: rest) ->
    (ptr s = None <-> use_count s = 0) /\
    (ptr s = None ->
       step s (call (Await r k) :: rest)
         = Go {| ptr := None; handles := handles s; locks := locks s;
                 trace := trace s ++ [called_request true] |}
              (call (r true) :: call k :: rest)) /\
    (forall d h, ptr s = Some d -> who_awaits_data d = Some h ->
       step s (call (Await r k) :: rest)
         = Go {| ptr := Some d; handles := handles s;
                 locks := S (locks s);
                 trace := trace s ++ [called_request false] |}
              (call (r false) :: unlock :: call k :: rest)) /\
    (forall d, ptr s = Some d -> who_awaits_data d = None ->
       who_awaits_request d = None ->
       step s (call (Await r k) :: rest)
         = Go {| ptr := Some {| who_awaits_request := Some r;
                                who_awaits_data := None |};
                 handles := handles s; locks := S (locks s);
                 trace := trace s |}
              (unlock :: call k :: rest) /\
       run 2 s (call (Await r k) :: rest)
         = Go {| ptr := Some {| who_awaits_request := Some r;
                                who_awaits_data := None |};
                 handles := handles s; locks := locks s;
                 trace := trace s |}
              (call k :: rest)) /\
    (forall s' stk', step s (call (Await r k) :: rest) = Go s' stk' ->
       (ptr s = None /\ stk' = call (r true) :: call k :: rest /\
        ptr s' = None)
       \/
       (ptr s <> None /\ awaits_data s <> None /\
        stk' = call (r false) :: unlock :: call k :: rest /\
        ptr s' = ptr s)
       \/
       (ptr s <> None /\ awaits_data s = None /\
        stk' = unlock :: call k :: rest /\
        awaits_request s' = Some r /\ trace s' = trace s)).
Proof.
  intros T E main s r k rest Hr.
  destruct (sound_reachable Hr) as [Hu Hx].
  split; [exact Hu|]. split; [|split; [|split]].
  - intros Hd. simpl. unfold await. rewrite Hd. reflexivity.
  - intros d h Hd Hw. simpl. unfold await. rewrite Hd.
    destruct (Hx d Hd) as [Hq | Hq]; [|congruence].
    rewrite Hq, Hw. reflexivity.
  - intros d Hd Hw Hq.
    assert (Hs : step s (call (Await r k) :: rest)
                 = Go {| ptr := Some {| who_awaits_request := Some r;
                                        who_awaits_data := None |};
                         handles := handles s; locks := S (locks s);
                         trace := trace s |}
                      (unlock :: call k :: rest)).
    { simpl. unfold await. rewrite Hd, Hq, Hw. reflexivity. }
    split; [exact Hs|].
    change (run 2 s (call (Await r k) :: rest))
      with (match step s (call (Await r k) :: rest) with
            | Go s' stk' => run 1 s' stk'
            | o => o
            end).
    rewrite Hs. simpl. unfold release. simpl.
    assert (Hpos : use_count s <> 0)
      by (intros H0; apply Hu in H0; congruence).
    unfold use_count in Hpos.
    destruct (handles s + locks s) eqn:Hsum; [contradiction|].
    reflexivity.
  - intros s' stk' Hst. simpl in Hst. unfold await in Hst.
    unfold awaits_data, awaits_request.
    destruct (ptr s) as [d|] eqn:Hd.
    + destruct (who_awaits_request d); [discriminate|].
      destruct (who_awaits_data d) eqn:Hw; injection Hst as <- <-; simpl.
      * right; left. repeat split; discriminate.
      * right; right. repeat split; discriminate.
    + injection Hst as <- <-. left. repeat split.
Qed.

Lemma provider_await_cases_witness :
  reachable consumer_first (asked report) [call (Await answer_7 Ret)] /\
  step (asked report) [call (Await answer_7 Ret)]
    = Go {| ptr := Some {| who_awaits_request := None;
                           who_awaits_data := Some report |};
            handles := 1; locks := 1;
            trace := [called_request false] |}
         [call (answer_7 false); unlock; call Ret].
Proof.
  assert (Hr : reachable consumer_first (asked report)
                 [call (Await answer_7 Ret)]).
  { apply (@reachable_after_run nat nat consumer_first 1 slot
             [call consumer_first]); [apply reach_slot | reflexivity]. }
  split; [exact Hr|].
  apply (proj1 (proj2 (proj2 (provider_await_cases Hr)))
           {| who_awaits_request := None; who_awaits_data := Some report |}
           report eq_refl eq_refl).
Defined.

(** C6: in every transition of every program, a callback that is
    registered on one side of the slot is not displaced by another one:
    if one is registered before and one after, it is the same.
    [deliver] takes the data-waiting callback off the slot before it
    runs it, so a consumer that still holds the slot may ask again
    from inside the delivered callback: that request finds the slot
    free and registers its callback. *)
Theorem slot_single_listener :
  forall (T E : Type) (main : code T E) (s s' : state T E)
         (stk stk' : list (frame T E)),
    reachable main s stk -> step s stk = Go s' stk' ->
    (forall h h', awaits_data s = Some h -> awaits_data s' = Some h' ->
                  h' = h) /\
    (forall r r', awaits_request s = Some r ->
                  awaits_request s' = Some r' -> r' = r) /\
    (forall v k rest h,
       stk = call (Deliver v k) :: rest -> awaits_data s = Some h ->
       awaits_data s' = None /\
       stk' = call (h v) :: unlock :: call k :: rest /\
       (forall h' k', h v = Request h' k' -> 0 < handles s ->
          exists s'',
            step s' stk' = Go s'' (call k' :: unlock :: call k :: rest) /\
            awaits_data s'' = Some h')).
Proof.
  intros T E main s s' stk stk' Hr Hst.
  destruct (sound_reachable Hr) as [Hu Hx].
  unfold awaits_data, awaits_request.
  split; [|split].
  - intros h h' Hh Hh'.
    destruct (ptr s) as [d|] eqn:Hd; [|discriminate].
    unfold step in Hst.
    destruct stk as [|[[|e k|g k|r k|v k|k|k]|] rest]; try discriminate;
      unfold request, await, deliver, release in Hst;
      rewrite ?Hd, ?Hh in Hst;
      repeat match type of Hst with
             | context [match ?x with _ => _ end] => destruct x
             end;
      try discriminate;
      injection Hst as <- _; simpl in Hh'; rewrite ?Hd in Hh'; congruence.
  - intros r r' Hq Hq'.
    destruct (ptr s) as [d|] eqn:Hd; [|discriminate].
    unfold step in Hst.
    destruct stk as [|[[|e k|g k|q k|v k|k|k]|] rest]; try discriminate;
      unfold request, await, deliver, release in Hst;
      rewrite ?Hd, ?Hq in Hst;
      repeat match type of Hst with
             | context [match ?x with _ => _ end] => destruct x
             end;
      try discriminate;
      injection Hst as <- _; simpl in Hq'; rewrite ?Hd in Hq'; congruence.
  - intros v k rest h -> Hh.
    destruct (ptr s) as [d|] eqn:Hd; [|discriminate].
    simpl in Hst. unfold deliver in Hst. rewrite Hd, Hh in Hst.
    injection Hst as <- <-. simpl.
    split; [reflexivity|]. split; [reflexivity|].
    intros h' k' -> Hpos. simpl. unfold request; simpl.
    destruct (handles s); [inversion Hpos|].
    destruct (Hx d eq_refl) as [Hq | Hq]; [|congruence].
    rewrite Hq. eexists; split; reflexivity.
Qed.

Lemma slot_single_listener_witness :
  reachable chained (asked ask_again) [call (Deliver 1 (Deliver 2 Ret))] /\
  awaits_data (asked ask_again) = Some ask_again /\
  exists s'',
    step {| ptr := Some {| who_awaits_request := None;
                           who_awaits_data := None |};
            handles := 1; locks := 1; trace := [called_data 1] |}
         [call (ask_again 1); unlock; call (Deliver 2 Ret)]
      = Go s'' [call (Emit 1 Ret); unlock; call (Deliver 2 Ret)] /\
    awaits_data s'' = Some report.
Proof.
  assert (Hr : reachable chained (asked ask_again)
                 [call (Deliver 1 (Deliver 2 Ret))]).
  { apply (@reachable_after_run nat nat chained 1 slot [call chained]);
      [apply reach_slot | reflexivity]. }
  split; [exact Hr|]. split; [reflexivity|].
  refine (proj2 (proj2 (proj2 (proj2
            (@slot_single_listener nat nat chained (asked ask_again) _ _ _
               Hr eq_refl))
            1 (Deliver 2 Ret) [] ask_again eq_refl eq_refl))
            report (Emit 1 Ret) eq_refl _).
  simpl. lia.
Defined.

(** C7, as stated, fails: a [deliver] made after the consumer side is
    dead does nothing and returns; the program goes on (it emits [9])
    and ends normally. *)
Lemma provider_deliver_after_death_is_silent :
  run 2 slot [call late_deliver]
    = Go {| ptr := None; handles := 0; locks := 0; trace := [] |}
         [call (Emit 9 Ret)] /\
  run 20 slot [call late_deliver]
    = Halt {| ptr := None; handles := 0; locks := 0;
              trace := [emitted 9] |}.
Proof. split; reflexivity. Qed.

(** C7, amended: on a live slot, [deliver(v)] with a data-waiting
    callback registered takes the callback, leaves the slot without
    one, and invokes it with [v]; with none registered the assertion
    fails.  On a slot whose consumer side is dead, [deliver] invokes
    nothing, changes nothing and returns. *)
Theorem provider_deliver_cases :
  forall (T E : Type) (s : state T E) (v : T) (k : code T E)
         (rest : list (frame T E)),
    (forall d h, ptr s = Some d -> who_awaits_data d = Some h ->
       step s (call (Deliver v k) :: rest)
         = Go {| ptr := Some {| who_awaits_request := who_awaits_request d;
                                who_awaits_data := None |};
                 handles := handles s; locks := S (locks s);
                 trace := trace s ++ [called_data v] |}
              (call (h v) :: unlock :: call k :: rest)) /\
    (forall d, ptr s = Some d -> who_awaits_data d = None ->
       step s (call (Deliver v k) :: rest) = Abort) /\
    (ptr s = None ->
       step s (call (Deliver v k) :: rest) = Go s (call k :: rest)).
Proof.
  intros T E s v k rest. simpl. unfold deliver.
  split; [|split].
  - intros d h -> ->. reflexivity.
  - intros d -> ->. reflexivity.
  - intros ->. reflexivity.
Qed.

(** C10: when the consumer calls [request(h)] on a slot on which the
    producer callback [r] is parked, the transition stores [h] as the
    data-waiting callback, clears the request-waiting one and then
    runs [r(false)]; when [r(false)], after any output of its own,
    calls [deliver(v)], that delivery finds [h], takes it, and the next
    thing to run is [h(v)]. *)
Theorem request_wakes_parked_producer :
  forall (T E : Type) (main : code T E) (s : state T E)
         (r : bool -> code T E) (h : T -> code T E) (k : code T E)
         (rest : list (frame T E)),
    reachable main s (call (Request h k) :: rest) ->
    0 < handles s -> awaits_request s = Some r ->
    step s (call (Request h k) :: rest)
      = Go {| ptr := Some {| who_awaits_request := None;
                             who_awaits_data := Some h |};
              handles := handles s; locks := locks s;
              trace := trace s ++ [called_request false] |}
           (call (r false) :: call k :: rest) /\
    (forall es v kr, r false = emits es (Deliver v kr) ->
       run (S (length es + 1)) s (call (Request h k) :: rest)
         = Go {| ptr := Some {| who_awaits_request := None;
                                who_awaits_data := None |};
                 handles := handles s; locks := S (locks s);
                 trace := ((trace s ++ [called_request false])
                           ++ map emitted es)
                          ++ [called_data v] |}
              (call (h v) :: unlock :: call kr :: call k :: rest)).
Proof.
  intros T E main s r h k rest Hr Hpos Hq.
  destruct (sound_reachable Hr) as [_ Hx].
  unfold awaits_request in Hq.
  destruct (ptr s) as [d|] eqn:Hd; [|discriminate].
  assert (Hw : who_awaits_data d = None).
  { destruct (Hx d eq_refl) as [H | H]; [congruence | exact H]. }
  assert (Hs : step s (call (Request h k) :: rest)
               = Go {| ptr := Some {| who_awaits_request := None;
                                      who_awaits_data := Some h |};
                       handles := handles s; locks := locks s;
                       trace := trace s ++ [called_request false] |}
                    (call (r false) :: call k :: rest)).
  { simpl. unfold request. rewrite Hd, Hw, Hq.
    destruct (handles s); [inversion Hpos | reflexivity]. }
  split; [exact Hs|].
  intros es v kr Hrf.
  change (run (S (length es + 1)) s (call (Request h k) :: rest))
    with (match step s (call (Request h k) :: rest) with
          | Go s' stk' => run (length es + 1) s' stk'
          | o => o
          end).
  rewrite Hs, Hrf, run_then, run_emits. reflexivity.
Qed.

Lemma request_wakes_parked_producer_witness :
  reachable producer_first (parked answer_7) [call (Request report Ret)] /\
  run 2 (parked answer_7) [call (Request report Ret)]
    = Go {| ptr := Some {| who_awaits_request := None;
                           who_awaits_data := None |};
            handles := 1; locks := 1;
            trace := [called_request false; called_data 7] |}
         [call (report 7); unlock; call Ret; call Ret].
Proof.
  assert (Hr : reachable producer_first (parked answer_7)
                 [call (Request report Ret)]).
  { apply (@reachable_after_run nat nat producer_first 2 slot
             [call producer_first]); [apply reach_slot | reflexivity]. }
  split; [exact Hr|].
  apply (proj2 (@request_wakes_parked_producer nat nat producer_first
                  (parked answer_7) answer_7 report Ret [] Hr (le_n 1)
                  eq_refl)
           [] 7 Ret eq_refl).
Defined.

End SlotClaims.

(* ================================================================== *)
(** * More about the slot                                              *)
(* ================================================================== *)

Section SlotMore.

Import Slot.

Variables T E : Type.
Implicit Types (s : state T E) (d : data T E) (stk rest : list (frame T E)).

(** Every locked pointer has its end of scope on the stack. *)
Lemma locks_release : forall h l s stk s' stk',
  l = unlocks stk -> release h l s stk = Go s' stk' ->
  locks s' = unlocks stk'.
Proof.
  intros h l s stk s' stk' Hl Hr. unfold release in Hr.
  unfold unlocks in *.
  destruct (h + l) eqn:Hsum.
  - assert (Hz : length (filter (@is_unlock T E) stk) = 0) by lia.
    destruct (ptr s) as [d|].
    + destruct (who_awaits_request d); injection Hr as <- <-; simpl;
        rewrite ?Hz; reflexivity.
    + injection Hr as <- <-. simpl. exact Hl.
  - injection Hr as <- <-. simpl. exact Hl.
Qed.

Lemma locks_step : forall s stk s' stk',
  locks s = unlocks stk -> step s stk = Go s' stk' ->
  locks s' = unlocks stk'.
Proof.
  intros s stk s' stk' Hl Hst. unfold step in Hst.
  destruct stk as [|[[|e k|h k|r k|v k|k|k]|] rest]; try discriminate;
    unfold unlocks in *; simpl in Hl.
  - injection Hst as <- <-. exact Hl.
  - injection Hst as <- <-. exact Hl.
  - unfold request in Hst.
    destruct (handles s); [discriminate|].
    destruct (ptr s) as [d|]; [|discriminate].
    destruct (who_awaits_data d); [discriminate|].
    destruct (who_awaits_request d); injection Hst as <- <-; exact Hl.
  - unfold await in Hst.
    destruct (ptr s) as [d|].
    + destruct (who_awaits_request d); [discriminate|].
      destruct (who_awaits_data d); injection Hst as <- <-; simpl;
        rewrite Hl; reflexivity.
    + injection Hst as <- <-. exact Hl.
  - unfold deliver in Hst.
    destruct (ptr s) as [d|].
    + destruct (who_awaits_data d); [|discriminate].
      injection Hst as <- <-. simpl. rewrite Hl. reflexivity.
    + injection Hst as <- <-. exact Hl.
  - destruct (handles s); [discriminate|].
    injection Hst as <- <-. exact Hl.
  - destruct (handles s) as [|h]; [discriminate|].
    apply (@locks_release h (locks s) s (call k :: rest) s' stk');
      assumption.
  - destruct (locks s) as [|l]; [discriminate|].
    apply (@locks_release (handles s) l s rest s' stk'); [|assumption].
    unfold unlocks. lia.
Qed.

Lemma locks_reachable : forall main s stk,
  reachable main s stk -> locks s = unlocks stk.
Proof.
  intros main s stk H; induction H as [|s stk s' stk' _ IH Hst].
  - reflexivity.
  - eapply locks_step; eassumption.
Qed.

(** X4: in every configuration a program can reach, the record of the
    slot exists exactly while it has a strong owner, and the two sides
    never wait at the same time: when a request-waiting callback is
    registered no data-waiting callback is, and conversely. *)
Theorem slot_sides_exclusive :
  forall (main : code T E) (s : state T E) (stk : list (frame T E)),
    reachable main s stk ->
    (ptr s = None <-> use_count s = 0) /\
    (awaits_request s = None \/ awaits_data s = None).
Proof.
  intros main s stk Hr. destruct (sound_reachable Hr) as [Hu Hx].
  split; [exact Hu|]. unfold awaits_request, awaits_data.
  destruct (ptr s) as [d|]; [apply Hx; reflexivity | left; reflexivity].
Qed.

(** X5: the locked pointer taken by [await] and [deliver] keeps the
    record alive for as long as the callback they invoke is running:
    the locks held are exactly the scopes still open on the stack, and
    while one is open the record exists - also when the callback drops
    the last consumer handle. *)
Theorem slot_lock_outlives_callback :
  forall (main : code T E) (s : state T E) (stk : list (frame T E)),
    reachable main s stk ->
    locks s = unlocks stk /\ (0 < unlocks stk -> ptr s <> None).
Proof.
  intros main s stk Hr. pose proof (locks_reachable Hr) as Hl.
  split; [exact Hl|]. intros Hpos Hd.
  destruct (sound_reachable Hr) as [Hu _]. apply Hu in Hd.
  unfold use_count in Hd. lia.
Qed.

Lemma dead_step_trace : forall s stk s' stk',
  ptr s = None -> step s stk = Go s' stk' ->
  exists tr, trace s' = trace s ++ tr /\ forallb (@posthumous T E) tr = true.
Proof.
  intros s stk s' stk' Hd Hst. unfold step in Hst.
  destruct stk as [|[[|e k|h k|r k|v k|k|k]|] rest]; try discriminate;
    unfold request, await, deliver, release in Hst; rewrite ?Hd in Hst.
  - injection Hst as <- _. exists []. rewrite app_nil_r. now split.
  - injection Hst as <- _. exists [emitted e]. now split.
  - destruct (handles s); discriminate.
  - injection Hst as <- _. exists [called_request true]. now split.
  - injection Hst as <- _. exists []. rewrite app_nil_r. now split.
  - destruct (handles s); [discriminate|].
    injection Hst as <- _. exists []. simpl. rewrite app_nil_r. now split.
  - destruct (handles s) as [|h]; [discriminate|].
    destruct (h + locks s); injection Hst as <- _;
      exists []; simpl; rewrite app_nil_r; now split.
  - destruct (locks s) as [|l]; [discriminate|].
    destruct (handles s + l); injection Hst as <- _;
      exists []; simpl; rewrite app_nil_r; now split.
Qed.

(** X7: once the record is destroyed nothing is delivered any more: in
    whatever the program does afterwards the record stays destroyed, no
    data-waiting callback is invoked and no request-waiting callback is
    invoked with [terminate = false]. *)
Theorem slot_dead_is_final :
  forall (n : nat) (s s' : state T E) (stk : list (frame T E)),
    ptr s = None -> state_of (run n s stk) = Some s' ->
    ptr s' = None /\
    exists tr, trace s' = trace s ++ tr /\
               forallb (@posthumous T E) tr = true.
Proof.
  induction n as [|n IH]; intros s s' stk Hd Hrun; simpl in Hrun.
  - injection Hrun as <-. split; [exact Hd|].
    exists []. rewrite app_nil_r. now split.
  - destruct (step s stk) as [s1 stk1|s1| |] eqn:Hst; try discriminate.
    + destruct (IH s1 s' stk1 (@dead_step T E s stk s1 stk1 Hd Hst) Hrun)
        as [Hd' (tr2 & Ht2 & Hq2)].
      destruct (@dead_step_trace s stk s1 stk1 Hd Hst) as (tr1 & Ht1 & Hq1).
      split; [exact Hd'|]. exists (tr1 ++ tr2).
      rewrite Ht2, Ht1, app_assoc. split; [reflexivity|].
      rewrite forallb_app, Hq1, Hq2. reflexivity.
    + injection Hrun as <-. destruct stk; [|simpl in Hst].
      * injection Hst as <-. split; [exact Hd|].
        exists []. rewrite app_nil_r. now split.
      * unfold step in Hst.
        destruct f as [[|e k|h k|r k|v k|k|k]|];
          unfold request, await, deliver, release in Hst;
          rewrite ?Hd in Hst;
          repeat match type of Hst with
                 | context [match ?x with _ => _ end] => destruct x
                 end; discriminate.
Qed.

(** X6: the rendezvous does not depend on who comes first.  On a live
    slot with nothing registered, a consumer that asks with [h] and a
    producer that awaits with a callback answering [v] end in the same
    state with the same trace - one wake-up of the producer, one
    delivery of [v] to [h], then the output of [h] - whether the request
    or the await is made first. *)
Theorem slot_rendezvous_order :
  forall (s : state T E) (h : T -> code T E) (r : bool -> code T E)
         (v : T) (es : list E) (rest : list (frame T E)),
    ptr s = Some {| who_awaits_request := None; who_awaits_data := None |} ->
    0 < handles s ->
    r false = Deliver v Ret -> h v = emits es Ret ->
    run (length es + 9) s
        (call (Request h Ret) :: call (Await r Ret) :: rest)
      = Go {| ptr := Some {| who_awaits_request := None;
                             who_awaits_data := None |};
              handles := handles s; locks := locks s;
              trace := (trace s ++ [called_request false; called_data v])
                       ++ map emitted es |}
           rest /\
    run (length es + 9) s
        (call (Await r Ret) :: call (Request h Ret) :: rest)
      = run (length es + 9) s
            (call (Request h Ret) :: call (Await r Ret) :: rest).
Proof.
  intros s h r v es rest Hp Hpos Hrf Hh.
  destruct s as [p hs ls tr]; simpl in *; subst p.
  destruct hs as [|hs]; [inversion Hpos|].
  assert (H1 : run (length es + 9)
                 {| ptr := Some {| who_awaits_request := None;
                                   who_awaits_data := None |};
                    handles := S hs; locks := ls; trace := tr |}
                 (call (Request h Ret) :: call (Await r Ret) :: rest)
               = Go {| ptr := Some {| who_awaits_request := None;
                                      who_awaits_data := None |};
                       handles := S hs; locks := ls;
                       trace := (tr ++ [called_request false; called_data v])
                                ++ map emitted es |}
                    rest).
  { replace (length es + 9) with (3 + (1 + (length es + 5))) by lia.
    rewrite (run_then 3). simpl (run 3 _ _). rewrite Hrf.
    rewrite (run_then 1). simpl (run 1 _ _). rewrite Hh.
    rewrite run_then, run_emits. unfold logged; simpl.
    rewrite <- !app_assoc. reflexivity. }
  split; [exact H1|]. rewrite H1.
  replace (length es + 9) with (4 + (1 + (length es + 4))) by lia.
  rewrite (run_then 4). simpl (run 4 _ _). rewrite Hrf.
  rewrite (run_then 1). simpl (run 1 _ _). rewrite Hh.
  rewrite run_then, run_emits. unfold logged; simpl.
  rewrite <- !app_assoc. reflexivity.
Qed.

End SlotMore.

Section SlotMoreWitnesses.

Import Slot.

Lemma slot_sides_exclusive_witness :
  reachable producer_first (parked answer_7) [call (Request report Ret)] /\
  (awaits_request (parked answer_7) = None \/
   awaits_data (parked answer_7) = None).
Proof.
  assert (Hr : reachable producer_first (parked answer_7)
                 [call (Request report Ret)]).
  { apply (@reachable_after_run nat nat producer_first 2 slot
             [call producer_first]); [apply reach_slot | reflexivity]. }
  split; [exact Hr|].
  exact (proj2 (slot_sides_exclusive Hr)).
Defined.

Lemma slot_lock_outlives_callback_witness :
  reachable last_wish
    {| ptr := Some {| who_awaits_request := None; who_awaits_data := None |};
       handles := 0; locks := 1; trace := [called_data 1] |}
    [call (Emit 3 Ret); unlock; call Ret] /\
  ptr {| ptr := Some {| who_awaits_request := None;
                        who_awaits_data := @None (nat -> code nat nat) |};
         handles := 0; locks := 1; trace := [@called_data nat nat 1] |}
    <> None.
Proof.
  assert (Hr : reachable last_wish
                 {| ptr := Some {| who_awaits_request := None;
                                   who_awaits_data := None |};
                    handles := 0; locks := 1; trace := [called_data 1] |}
                 [call (Emit 3 Ret); unlock; call Ret]).
  { apply (@reachable_after_run nat nat last_wish 3 slot
             [call last_wish]); [apply reach_slot | reflexivity]. }
  split; [exact Hr|].
  apply (proj2 (slot_lock_outlives_callback Hr)).
  unfold unlocks; simpl. lia.
Defined.

Lemma slot_dead_is_final_witness :
  state_of (run 20 {| ptr := None; handles := 0; locks := 0; trace := [] |}
              [call (Await answer_7 (Deliver 5 Ret))])
    = Some {| ptr := None; handles := 0; locks := 0;
              trace := [called_request true; emitted 0] |} /\
  exists tr,
    [@called_request nat nat true; emitted 0] = [] ++ tr /\
    forallb (@posthumous nat nat) tr = true.
Proof.
  split; [reflexivity|].
  exact (proj2 (@slot_dead_is_final nat nat 20
                  {| ptr := None; handles := 0; locks := 0; trace := [] |}
                  {| ptr := None; handles := 0; locks := 0;
                     trace := [called_request true; emitted 0] |}
                  [call (Await answer_7 (Deliver 5 Ret))]
                  eq_refl eq_refl)).
Defined.

Lemma slot_rendezvous_order_witness :
  run 10 slot [call (Request report Ret); call (Await answer_7 Ret)]
    = Go {| ptr := Some {| who_awaits_request := None;
                           who_awaits_data := None |};
            handles := 1; locks := 0;
            trace := [called_request false; called_data 7; emitted 7] |}
         [] /\
  run 10 slot [call (Await answer_7 Ret); call (Request report Ret)]
    = run 10 slot [call (Request report Ret); call (Await answer_7 Ret)].
Proof.
  exact (@slot_rendezvous_order nat nat slot report answer_7 7 [7] []
           eq_refl (le_n 1) eq_refl eq_refl).
Defined.

End SlotMoreWitnesses.

(* ================================================================== *)
(** * Properties of the executor                                       *)
(* ================================================================== *)

Section ExecutorFacts.

Import Executor.

Variables task W E : Type.
Variable perform : task -> W -> W * list (E + task).

Implicit Types (st : state task W E) (t : task) (q cur : list task).

(** A call [t()] leaves the queue as it was, with the tasks it
    scheduled behind. *)
Lemma fold_act : forall acts q w tr,
  fold_left (@act task W E) acts {| tasks := q; world := w; trace := tr |}
    = {| tasks := q ++ spawned acts; world := w;
         trace := tr ++ outputs acts |}.
Proof.
  induction acts as [|[e|t] acts IH]; intros q w tr; simpl.
  - now rewrite !app_nil_r.
  - rewrite IH. now rewrite <- app_assoc.
  - unfold schedule; simpl. rewrite IH. now rewrite <- app_assoc.
Qed.

Lemma run_task_eq : forall t q w tr,
  run_task perform t {| tasks := q; world := w; trace := tr |}
    = {| tasks := q ++ spawned (snd (perform t w));
         world := fst (perform t w);
         trace := tr ++ outputs (snd (perform t w)) |}.
Proof. intros t q w tr. unfold run_task; simpl. apply fold_act. Qed.

Lemma run_task_behind : forall t q0 q w tr,
  run_task perform t {| tasks := q0 ++ q; world := w; trace := tr |}
    = {| tasks := q0 ++ tasks (run_task perform t
                                 {| tasks := q; world := w;
                                             trace := tr |});
         world := world (run_task perform t {| tasks := q; world := w;
                                       trace := tr |});
         trace := trace (run_task perform t {| tasks := q; world := w;
                                       trace := tr |}) |}.
Proof.
  intros t q0 q w tr. rewrite !run_task_eq. simpl.
  now rewrite app_assoc.
Qed.

(** The queue runs a round of the executor task by task. *)
Lemma fifo_round : forall cur q w tr fuel,
  fifo perform (length cur + fuel)
    {| tasks := cur ++ q; world := w; trace := tr |}
    = fifo perform fuel
        (run_all perform cur {| tasks := q; world := w; trace := tr |}).
Proof.
  induction cur as [|t cur IH]; intros q w tr fuel; [reflexivity|].
  simpl. rewrite run_task_behind.
  rewrite (run_task_eq t q w tr). simpl. rewrite IH.
  rewrite <- run_task_eq. reflexivity.
Qed.

Lemma fifo_needs : forall cur q w tr fuel st',
  fifo perform fuel {| tasks := cur ++ q; world := w; trace := tr |}
    = Some st' ->
  exists fuel', fuel = length cur + fuel'.
Proof.
  induction cur as [|t cur IH]; intros q w tr fuel st' H.
  - exists fuel. reflexivity.
  - destruct fuel as [|fuel]; [discriminate|]. simpl in H.
    rewrite run_task_behind in H. rewrite (run_task_eq t q w tr) in H.
    simpl in H. destruct (IH _ _ _ _ _ H) as [fuel' ->].
    exists fuel'. reflexivity.
Qed.

Lemma execute_fifo : forall fuel st st',
  execute perform fuel st = Some st' ->
  exists fuel', fifo perform fuel' st = Some st'.
Proof.
  induction fuel as [|fuel IH]; intros [q w tr] st' H; simpl in H.
  - destruct q; [|discriminate]. exists 0. exact H.
  - destruct q as [|t q]; [exists 0; exact H|].
    destruct (IH _ _ H) as [fuel' Hf].
    exists (length (t :: q) + fuel').
    rewrite <- (app_nil_r (t :: q)) at 2. rewrite fifo_round. exact Hf.
Qed.

Lemma fifo_execute : forall fuel st st',
  fifo perform fuel st = Some st' ->
  exists fuel', execute perform fuel' st = Some st'.
Proof.
  induction fuel as [fuel IH] using lt_wf_ind; intros [q w tr] st' H.
  destruct q as [|t q]; [exists 0; destruct fuel; exact H|].
  rewrite <- (app_nil_r (t :: q)) in H.
  destruct (fifo_needs _ _ _ _ _ H) as [fuel' ->].
  rewrite fifo_round in H.
  destruct (IH fuel' ltac:(simpl; lia) _ _ H) as [fuel2 He].
  exists (S fuel2). exact He.
Qed.

Lemma execute_empties : forall fuel st st',
  execute perform fuel st = Some st' -> tasks st' = [].
Proof.
  induction fuel as [|fuel IH]; intros [q w tr] st' H; simpl in H.
  - destruct q; [|discriminate]. injection H as <-. reflexivity.
  - destruct q as [|t q]; [injection H as <-; reflexivity|].
    eapply IH. exact H.
Qed.

(** X10: [execute()] is a first-in first-out queue: it returns exactly
    when running the tasks one by one from the front of the queue, the
    tasks they schedule going to the back, comes to an end, and then
    with the same state and the same outputs in the same order; and
    when it returns no task is left. *)
Theorem execute_is_fifo :
  forall (st st' : state task W E),
    ((exists fuel, execute perform fuel st = Some st')
     <-> (exists fuel, fifo perform fuel st = Some st')) /\
    (forall fuel, execute perform fuel st = Some st' -> tasks st' = []).
Proof.
  intros st st'. split; [split|].
  - intros [fuel H]. eapply execute_fifo; exact H.
  - intros [fuel H]. eapply fifo_execute; exact H.
  - intros fuel H. eapply execute_empties; exact H.
Qed.

(** The tasks left by a round were scheduled by tasks of that round. *)
Lemma run_all_tasks : forall cur st t',
  In t' (tasks (run_all perform cur st)) ->
  In t' (tasks st) \/
  exists t w, In t cur /\ In t' (spawned (snd (perform t w))).
Proof.
  induction cur as [|t cur IH]; intros [q w tr] t' H; simpl in H.
  - left. exact H.
  - rewrite run_task_eq in H.
    destruct (IH _ _ H) as [Hin | (t0 & w0 & Hc & Hs)].
    + simpl in Hin. apply in_app_or in Hin. destruct Hin as [Hq | Hs].
      * left. exact Hq.
      * right. exists t, w. split; [left; reflexivity | exact Hs].
    + right. exists t0, w0. split; [right; exact Hc | exact Hs].
Qed.

(** X11: when tasks only schedule tasks of lower rank, [execute()]
    returns, after at most as many rounds as the highest rank in the
    queue plus one. *)
Theorem execute_returns :
  forall (rank : task -> nat) (bound : nat) (st : state task W E),
    ranked perform rank ->
    (forall t, In t (tasks st) -> rank t < bound) ->
    exists st', execute perform bound st = Some st' /\ tasks st' = [].
Proof.
  intros rank bound; induction bound as [|bound IH]; intros [q w tr] Hrk Hq.
  - destruct q as [|t q].
    + eexists; split; reflexivity.
    + exfalso. specialize (Hq t (or_introl eq_refl)). lia.
  - destruct q as [|t q].
    + eexists; split; reflexivity.
    + change (exists st',
                execute perform bound
                  (run_all perform (t :: q)
                     {| tasks := []; world := w; trace := tr |}) = Some st'
                /\ tasks st' = []).
      apply IH; [exact Hrk|].
      intros t' Hin.
      destruct (run_all_tasks _ _ _ Hin) as [Hin0 | (t0 & w0 & Hc & Hs)];
        [simpl in Hin0; contradiction|].
      specialize (Hrk t0 w0 t' Hs). specialize (Hq t0 Hc). lia.
Qed.

End ExecutorFacts.

Section ExecutorExamples.

Import Executor.

Example countdown_rounds :
  execute countdown 4 {| tasks := [3; 1]; world := tt; trace := [] |}
    = Some {| tasks := []; world := tt; trace := [3; 1; 2; 0; 1; 0] |}.
Proof. reflexivity. Qed.

Example countdown_queue :
  fifo countdown 6 {| tasks := [3; 1]; world := tt; trace := [] |}
    = Some {| tasks := []; world := tt; trace := [3; 1; 2; 0; 1; 0] |}.
Proof. reflexivity. Qed.

Lemma execute_returns_witness :
  ranked countdown (fun n => n) /\
  exists st',
    execute countdown 4 {| tasks := [3; 1]; world := tt; trace := [] |}
      = Some st' /\ tasks st' = [].
Proof.
  assert (Hr : ranked countdown (fun n => n)).
  { unfold ranked. intros t w t' H.
    destruct t as [|n]; unfold countdown in H; simpl in H;
      [contradiction|].
    destruct H as [<- | []]. lia. }
  split; [exact Hr|].
  apply (@execute_returns nat unit nat countdown (fun n => n) 4
           {| tasks := [3; 1]; world := tt; trace := [] |} Hr).
  intros t [<- | [<- | []]]; lia.
Defined.

End ExecutorExamples.

(* ================================================================== *)
(** * Properties of the directory scan                                 *)
(* ================================================================== *)

Section FsScanFacts.

Import FsScan.

Variables min_int max_int : Z.

Lemma add_int_some : forall a b r,
  add_int min_int max_int a b = Some r -> r = (a + b)%Z.
Proof.
  intros a b r H. unfold add_int in H.
  destruct ((min_int <=? a + b) && (a + b <=? max_int))%Z;
    [injection H as <-; reflexivity | discriminate].
Qed.

Lemma add_int_fits : forall a b,
  (min_int <= a + b <= max_int)%Z ->
  add_int min_int max_int a b = Some (a + b)%Z.
Proof.
  intros a b [H1 H2]. unfold add_int.
  apply Z.leb_le in H1. apply Z.leb_le in H2. rewrite H1, H2. reflexivity.
Qed.

Lemma sum_sizes_nonneg : forall files,
  Forall (fun n => (0 <= n)%Z) files -> (0 <= sum_sizes files)%Z.
Proof.
  induction 1 as [|n files Hn _ IH]; simpl; [lia|].
  unfold sum_sizes in *; simpl; lia.
Qed.

Lemma over_files_some : forall files result r,
  over_files min_int max_int files result = Some r ->
  r = (result + sum_sizes files)%Z.
Proof.
  induction files as [|n files IH]; intros result r H; simpl in H.
  - injection H as <-. unfold sum_sizes; simpl. lia.
  - destruct (add_int min_int max_int result n) as [r1|] eqn:Ha;
      [|discriminate].
    apply add_int_some in Ha. subst r1.
    rewrite (IH _ _ H). unfold sum_sizes; simpl. lia.
Qed.

Lemma over_files_fits : forall files result,
  Forall (fun n => (0 <= n)%Z) files ->
  (min_int <= result)%Z -> (result + sum_sizes files <= max_int)%Z ->
  over_files min_int max_int files result
    = Some (result + sum_sizes files)%Z.
Proof.
  induction files as [|n files IH]; intros result Hf Hlo Hhi; simpl.
  - unfold sum_sizes; simpl. f_equal. lia.
  - inversion Hf as [|? ? Hn Hrest]; subst.
    pose proof (sum_sizes_nonneg Hrest) as Hs.
    unfold sum_sizes in *; simpl in *.
    rewrite add_int_fits by lia.
    rewrite IH; [f_equal; lia | exact Hrest | lia | lia].
Qed.

(** Whatever the scan returns is the sum of the sizes. *)
Lemma calc_some : forall root r,
  calc_tree_size_sync min_int max_int root = Some r -> r = total root
with over_dirs_some : forall dirs result r,
  over_dirs min_int max_int dirs result = Some r ->
  r = (result + totals dirs)%Z.
Proof.
  - intros [dirs files] r H. simpl in H.
    destruct (over_dirs min_int max_int dirs 0) as [r1|] eqn:Hd;
      [|discriminate].
    apply over_dirs_some in Hd. apply over_files_some in H.
    simpl. lia.
  - intros [|d rest] result r H; simpl in H.
    + injection H as <-. simpl. lia.
    + destruct (calc_tree_size_sync min_int max_int d) as [n|] eqn:Hc;
        [|discriminate].
      destruct (add_int min_int max_int result n) as [r1|] eqn:Ha;
        [|discriminate].
      apply calc_some in Hc. apply add_int_some in Ha.
      apply over_dirs_some in H. simpl. lia.
Qed.

Lemma total_nonneg : forall root, sized root -> (0 <= total root)%Z
with totals_nonneg : forall dirs, all_sized dirs -> (0 <= totals dirs)%Z.
Proof.
  - intros [dirs files] [Hd Hf]. simpl.
    pose proof (totals_nonneg dirs Hd).
    pose proof (sum_sizes_nonneg Hf). lia.
  - intros [|d rest] H; simpl; [lia|]. destruct H as [Hd Hr].
    pose proof (total_nonneg d Hd). pose proof (totals_nonneg rest Hr).
    lia.
Qed.

Hypothesis min_int_nonpos : (min_int <= 0)%Z.

(** With sizes that are not negative the sums only grow, so a total that
    fits is reached without overflow on the way. *)
Lemma calc_fits : forall root,
  sized root -> (total root <= max_int)%Z ->
  calc_tree_size_sync min_int max_int root = Some (total root)
with over_dirs_fits : forall dirs result,
  all_sized dirs -> (0 <= result)%Z ->
  (result + totals dirs <= max_int)%Z ->
  over_dirs min_int max_int dirs result = Some (result + totals dirs)%Z.
Proof.
  - intros [dirs files] [Hd Hf] Hhi. simpl in *.
    pose proof (totals_nonneg dirs Hd) as Ht.
    pose proof (sum_sizes_nonneg Hf) as Hs.
    rewrite over_dirs_fits by (try assumption; lia).
    rewrite over_files_fits by (try assumption; lia).
    reflexivity.
  - intros [|d rest] result Hs Hlo Hhi; simpl in *.
    + f_equal. lia.
    + destruct Hs as [Hd Hr].
      pose proof (total_nonneg d Hd) as Ht.
      pose proof (totals_nonneg rest Hr) as Hts.
      rewrite calc_fits by (try assumption; lia).
      rewrite add_int_fits by lia.
      rewrite over_dirs_fits by (try assumption; lia).
      f_equal. lia.
Qed.

End FsScanFacts.

Section FsScanClaims.

Import FsScan.

(** The test of the documentation: the tree of depth three adds up to
    81. *)
Example fake_sync_dir_81 :
  calc_tree_size_sync (- 2 ^ 31) (2 ^ 31 - 1) (fake_sync_dir 3 0) = Some 81%Z.
Proof. vm_compute. reflexivity. Qed.

(** X12: [calc_tree_size_sync] returns the sum of the sizes of all files
    in the tree under [root]: whenever it returns without overflow its
    result is that sum, and when no size is negative and the sum fits an
    [int] it does return it - no partial sum overflows. *)
Theorem calc_tree_size_sync_total :
  forall (min_int max_int : Z) (root : sync_dir),
    (min_int <= 0)%Z ->
    (forall r, calc_tree_size_sync min_int max_int root = Some r ->
               r = total root) /\
    (sized root -> (total root <= max_int)%Z ->
     calc_tree_size_sync min_int max_int root = Some (total root)).
Proof.
  intros min_int max_int root Hmin. split.
  - intros r H. eapply calc_some; exact H.
  - intros Hs Hhi. apply calc_fits; assumption.
Qed.

Lemma calc_tree_size_sync_total_witness :
  (- 2 ^ 31 <= 0)%Z /\
  calc_tree_size_sync (- 2 ^ 31) (2 ^ 31 - 1)
    (Dir (more (Dir no_dirs [5; 7]) no_dirs) [1])%Z
    = Some (total (Dir (more (Dir no_dirs [5; 7]) no_dirs) [1]))%Z.
Proof.
  assert (Hmin : (- 2 ^ 31 <= 0)%Z) by lia.
  split; [exact Hmin|].
  apply (proj2 (@calc_tree_size_sync_total (- 2 ^ 31) (2 ^ 31 - 1)
                  (Dir (more (Dir no_dirs [5; 7]) no_dirs) [1])%Z Hmin)).
  - simpl. repeat constructor; lia.
  - vm_compute. discriminate.
Defined.

End FsScanClaims.
